(** * SemanticOcTree: node-level fusion and bottom-up aggregation

    A shallow embedding of [octomap/SemanticOcTree.h] (class
    [SemanticOcTreeNode] and class [SemanticOcTree]) together with the
    properties of its colour blending, semantic-label fusion, child
    aggregation and per-node serialisation.

    Conventions of the embedding.
    - [uint8_t], [int] and [unsigned int] values are integers of [Z]; every
      narrowing conversion the C++ performs is written out ([u8], [u32]).
    - [float] is IEEE-754 binary32.  The code is written once over an
      interface of the arithmetic it uses ([FloatOps]) and run on the
      binary32 instance built from the standard library's [SpecFloat]
      (round to nearest even, NaN and infinities included).
    - A [std::vector<float>] is a [list]; its length is assumed to fit the
      [int] and [unsigned int] loop counters of the code, so counters are
      natural numbers.
    - A nullable pointer is an [option]; the eight child slots are a record
      of eight optional nodes.
    - Every [float] operation rounds its result to binary32 (no excess
      precision, no fused multiply-add).
    - [std::unordered_map::at] throws on a missing key; a computation that may
      throw returns an [option], [None] standing for the exception. *)

From Stdlib Require Import ZArith Lia.
From Stdlib Require Import Floats.SpecFloat.
From stdpp Require Import base option list gmap.

Local Open Scope Z_scope.
Set Warnings "-register-all".

(** ** Fixed-width integers *)

(** Conversion to [uint8_t]. *)
Definition u8 (x : Z) : Z := x mod 256.

(** Conversion to [unsigned int] (32 bits). *)
Definition u32 (x : Z) : Z := x mod 4294967296.

Definition u8_range (x : Z) : Prop := 0 <= x < 256.
Definition u32_range (x : Z) : Prop := 0 <= x < 4294967296.

(** ** The arithmetic of [float] used by the code *)

Class FloatOps (F : Type) := {
  fzero : F;                 (* the literal [0] / value-initialised float *)
  fadd : F -> F -> F;
  fmul : F -> F -> F;
  fdiv : F -> F -> F;
  flt : F -> F -> bool;      (* [a < b]; [a > b] is [flt b a] *)
  of_int : Z -> F;           (* conversion of an [int] or [unsigned int] *)
  inv_size : nat -> F        (* [1.0 / n] computed in [double], stored in a [float] *)
}.

(** *** IEEE-754 binary32 *)

Module Binary32.

Definition prec : Z := 24.
Definition emax : Z := 128.

Definition float32 : Type := spec_float.

Definition add : float32 -> float32 -> float32 := SFadd prec emax.
Definition mul : float32 -> float32 -> float32 := SFmul prec emax.
Definition div : float32 -> float32 -> float32 := SFdiv prec emax.
Definition ltb : float32 -> float32 -> bool := SFltb.
Definition leb : float32 -> float32 -> bool := SFleb.

Definition zero : float32 := S754_zero false.
Definition nan : float32 := S754_nan.

(** Integer to [float], rounding to nearest even. *)
Definition of_Z (n : Z) : float32 := binary_normalize prec emax n 0 false.

(** binary64, for the [double] subexpression [1.0 / size]. *)
Definition dprec : Z := 53.
Definition demax : Z := 1024.
Definition double_of_Z (n : Z) : spec_float := binary_normalize dprec demax n 0 false.

(** Narrowing of a [double] to a [float]. *)
Definition of_double (d : spec_float) : float32 :=
  match d with
  | S754_finite s m e => binary_round prec emax s m e
  | _ => d
  end.

Definition one_over_size (n : nat) : float32 :=
  of_double (SFdiv dprec demax (double_of_Z 1) (double_of_Z (Z.of_nat n))).

(** The [float] nearest to the fraction [p / q]. *)
Definition ratio (p q : Z) : float32 := div (of_Z p) (of_Z q).

Definition is_nan (x : float32) : bool :=
  match x with S754_nan => true | _ => false end.

End Binary32.

#[export] Instance float32_ops : FloatOps Binary32.float32 := {
  fzero := Binary32.zero;
  fadd := Binary32.add;
  fmul := Binary32.mul;
  fdiv := Binary32.div;
  flt := Binary32.ltb;
  of_int := Binary32.of_Z;
  inv_size := Binary32.one_over_size
}.

(** ** Data model *)

(** [SemanticOcTreeNode::Color]: three [uint8_t] channels. *)
Record Color : Type := mkColor { r : Z; g : Z; b : Z }.

(** [Color()]: the white value that stands for "no colour integrated". *)
Definition default_color : Color := mkColor 255 255 255.

Definition wf_color (c : Color) : Prop :=
  u8_range (r c) /\ u8_range (g c) /\ u8_range (b c).

(** [Color::operator==] and [Color::operator!=]. *)
Definition color_eqb (c d : Color) : bool :=
  (r c =? r d) && (g c =? g d) && (b c =? b d).
Definition color_neqb (c d : Color) : bool :=
  negb (r c =? r d) || negb (g c =? g d) || negb (b c =? b d).

(** The eight child slots of a node. *)
Record Array8 (T : Type) : Type :=
  mk8 { c0 : T; c1 : T; c2 : T; c3 : T; c4 : T; c5 : T; c6 : T; c7 : T }.
Arguments mk8 {T}.
Arguments c0 {T}. Arguments c1 {T}. Arguments c2 {T}. Arguments c3 {T}.
Arguments c4 {T}. Arguments c5 {T}. Arguments c6 {T}. Arguments c7 {T}.

(** The slots in the order of the loop [for (i = 0; i < 8; i++)]. *)
Definition to_list8 {T} (a : Array8 T) : list T :=
  [c0 a; c1 a; c2 a; c3 a; c4 a; c5 a; c6 a; c7 a].

Section Node.

Context {F : Type} `{FloatOps F}.

(** [SemanticOcTreeNode::Semantics]: the label distribution and the
    observation count ([unsigned int]). *)
Record Semantics : Type := mkSemantics { label : list F; count : Z }.

(** [Semantics()]. *)
Definition Semantics_default : Semantics := mkSemantics [] 0.

(** [Semantics(int num_class)]. *)
Definition Semantics_uniform (num_class : nat) : Semantics :=
  mkSemantics (replicate num_class (inv_size num_class)) 1.

(** [Semantics(std::vector<float> _label)]. *)
Definition Semantics_of_label (l : list F) : Semantics := mkSemantics l 1.

(** A node: the inherited occupancy [value] (a [float], kept as its 32-bit
    object representation since this code never computes with it), the
    inherited [children] pointer (null, or an array of eight nullable child
    pointers), and the two members [color] and [semantics]. *)
Inductive SemanticOcTreeNode : Type :=
  mkNode {
    value : Z;
    color : Color;
    semantics : Semantics;
    children : option (Array8 (option SemanticOcTreeNode))
  }.

(** [SemanticOcTreeNode()]: [OcTreeNode()] leaves the log-odds at zero and
    the child pointer null. *)
Definition Node_default : SemanticOcTreeNode :=
  mkNode 0 default_color Semantics_default None.

(** [SemanticOcTreeNode(int num_class)]: the label vector is resized to
    [num_class] zeros, the count stays 0. *)
Definition Node_of_num_class (num_class : nat) : SemanticOcTreeNode :=
  mkNode 0 default_color (mkSemantics (replicate num_class fzero) 0) None.

Definition set_value (n : SemanticOcTreeNode) (v : Z) : SemanticOcTreeNode :=
  mkNode v (color n) (semantics n) (children n).
Definition set_children (n : SemanticOcTreeNode)
    (cs : option (Array8 (option SemanticOcTreeNode))) : SemanticOcTreeNode :=
  mkNode (value n) (color n) (semantics n) cs.

Definition getColor (n : SemanticOcTreeNode) : Color := color n.

(** [setColor(Color c)]. *)
Definition setColor (n : SemanticOcTreeNode) (c : Color) : SemanticOcTreeNode :=
  mkNode (value n) c (semantics n) (children n).

(** [setColor(uint8_t r, uint8_t g, uint8_t b)]: the arguments are
    converted to [uint8_t] at the call. *)
Definition setColor_rgb (n : SemanticOcTreeNode) (r' g' b' : Z) : SemanticOcTreeNode :=
  setColor n (mkColor (u8 r') (u8 g') (u8 b')).

Definition isColorSet (n : SemanticOcTreeNode) : bool :=
  negb (r (color n) =? 255) || negb (g (color n) =? 255) || negb (b (color n) =? 255).

Definition getSemantics (n : SemanticOcTreeNode) : Semantics := semantics n.

(** The loop of [getSemanticLabel]: [lbl] and [max] are the locals
    [label] and [max], [c] the loop counter. *)
Fixpoint getSemanticLabel_loop (lbl : Z) (max : F) (c : nat) (l : list F) : Z :=
  match l with
  | [] => lbl
  | x :: l' =>
      if flt max x
      then getSemanticLabel_loop (Z.of_nat c) x (S c) l'
      else getSemanticLabel_loop lbl max (S c) l'
  end.

Definition getSemanticLabel (n : SemanticOcTreeNode) : Z :=
  getSemanticLabel_loop 0 fzero 0 (label (semantics n)).

(** [setSemantics(Semantics & s)]. *)
Definition setSemantics (n : SemanticOcTreeNode) (s : Semantics) : SemanticOcTreeNode :=
  mkNode (value n) (color n) s (children n).

(** [setSemantics(std::vector<float> & label)]: only the label vector is
    replaced, the count is kept. *)
Definition setSemantics_label (n : SemanticOcTreeNode) (l : list F) : SemanticOcTreeNode :=
  setSemantics n (mkSemantics l (count (semantics n))).

Definition isSemanticsSet (n : SemanticOcTreeNode) : bool :=
  (0 <? length (label (semantics n)))%nat.

Definition addSemanticsCount (n : SemanticOcTreeNode) : SemanticOcTreeNode :=
  setSemantics n (mkSemantics (label (semantics n)) (u32 (count (semantics n) + 1))).

Definition resetSemanticsCount (n : SemanticOcTreeNode) : SemanticOcTreeNode :=
  setSemantics n (mkSemantics (label (semantics n)) 1).

(** The child slots read by the aggregation loops: none when the child
    array is null. *)
Definition child_slots (n : SemanticOcTreeNode) : list (option SemanticOcTreeNode) :=
  match children n with
  | None => []
  | Some a => to_list8 a
  end.

(** *** Colour of the children *)

(** One iteration of the averaging loop; the accumulator is
    [(mr, mg, mb, c)].  These are [int]s bounded by [8 * 255]. *)
Definition add_child_color (acc : Z * Z * Z * Z) (child : option SemanticOcTreeNode)
    : Z * Z * Z * Z :=
  let '(mr, mg, mb, c) := acc in
  match child with
  | Some ch =>
      if isColorSet ch
      then (mr + r (getColor ch), mg + g (getColor ch), mb + b (getColor ch), c + 1)
      else acc
  | None => acc
  end.

(** [getAverageChildColor()]. *)
Definition getAverageChildColor (n : SemanticOcTreeNode) : Color :=
  let '(mr, mg, mb, c) := fold_left add_child_color (child_slots n) (0, 0, 0, 0) in
  if 0 <? c
  then mkColor (u8 (mr ÷ c)) (u8 (mg ÷ c)) (u8 (mb ÷ c))
  else default_color.

(** [std::max_element] followed by [std::distance] from [begin()]: the
    position of the first element that no later element exceeds.  [best] and
    [bestv] are the position and value of [largest], [i] the position of
    the element examined next. *)
Fixpoint max_element_from (best : nat) (bestv : F) (i : nat) (l : list F) : nat :=
  match l with
  | [] => best
  | x :: l' =>
      if flt bestv x
      then max_element_from i x (S i) l'
      else max_element_from best bestv (S i) l'
  end.

Definition max_element (l : list F) : nat :=
  match l with
  | [] => 0%nat
  | x :: l' => max_element_from 0 x 1 l'
  end.

(** [getAverageChildColor(label2color)].  With an empty map the body is
    that of [getAverageChildColor()]; otherwise the colour is looked up
    for the most probable class of the node's own semantics, and
    [label2color.at] throws when the class has no entry. *)
Definition getAverageChildColor_map (label2color : gmap Z (Z * Z * Z))
    (n : SemanticOcTreeNode) : option Color :=
  if decide (size label2color = 0%nat)
  then Some (getAverageChildColor n)
  else
    let distribution := label (semantics n) in
    if decide (length distribution = 0%nat)
    then Some default_color
    else
      let max_prob_class := Z.of_nat (max_element distribution) in
      match label2color !! max_prob_class with
      | Some (cr, cg, cb) => Some (mkColor cr cg cb)
      | None => None
      end.

(** [sum = 0; for (...) sum += l[i];]. *)
Definition sum_labels (l : list F) : F := fold_left fadd l fzero.

(** *** Semantics of the children *)

(** [std::vector::resize]: new entries are value-initialised. *)
Definition resize (n : nat) (l : list F) : list F :=
  take n l ++ replicate (n - length l) fzero.

(** [for (l = 0; l < clabel.size(); l++) mlabel[l] += clabel[l];] on a
    vector [mlabel] at least as long as [clabel]. *)
Fixpoint add_into (mlabel clabel : list F) : list F :=
  match clabel with
  | [] => mlabel
  | x :: clabel' =>
      match mlabel with
      | [] => []
      | m :: mlabel' => fadd m x :: add_into mlabel' clabel'
      end
  end.

(** One iteration of the accumulation loop of [getAverageChildSemantics];
    the accumulator is [(mlabel, c)]. *)
Definition add_child_semantics (acc : list F * Z) (child : option SemanticOcTreeNode)
    : list F * Z :=
  let '(mlabel, c) := acc in
  match child with
  | Some ch =>
      if isSemanticsSet ch
      then
        let clabel := label (getSemantics ch) in
        let mlabel :=
          if (length mlabel <? length clabel)%nat
          then resize (length clabel) mlabel
          else mlabel in
        (add_into mlabel clabel, c + 1)
      else acc
  | None => acc
  end.

Definition getAverageChildSemantics (n : SemanticOcTreeNode) : Semantics :=
  let '(mlabel, c) := fold_left add_child_semantics (child_slots n) ([], 0) in
  if 0 <? c
  then
    let mlabel := map (fun x => fdiv x (of_int c)) mlabel in
    let sums := sum_labels mlabel in
    Semantics_of_label (map (fun d => fdiv d sums) mlabel)
  else Semantics_default.

Definition updateColorChildren (n : SemanticOcTreeNode) : SemanticOcTreeNode :=
  setColor n (getAverageChildColor n).

Definition updateColorChildren_map (label2color : gmap Z (Z * Z * Z))
    (n : SemanticOcTreeNode) : option SemanticOcTreeNode :=
  c ← getAverageChildColor_map label2color n; Some (setColor n c).

Definition updateSemanticsChildren (n : SemanticOcTreeNode) : SemanticOcTreeNode :=
  setSemantics n (getAverageChildSemantics n).

(** The body of [normalizeSemantics] on the label vector. *)
Definition normalize (l : list F) : list F :=
  let sum := sum_labels l in
  if flt fzero sum
  then map (fun x => fdiv x sum) l
  else map (fun _ => inv_size (length l)) l.

Definition normalizeSemantics (n : SemanticOcTreeNode) : SemanticOcTreeNode :=
  setSemantics n (mkSemantics (normalize (label (semantics n))) (count (semantics n))).

(** *** File I/O *)

(** The four bytes of the object representation of [value], least
    significant first. *)
Definition value_bytes (v : Z) : list Z :=
  [v mod 256; (v / 256) mod 256; (v / 65536) mod 256; (v / 16777216) mod 256].

Definition value_of_bytes (b0 b1 b2 b3 : Z) : Z :=
  b0 + 256 * b1 + 65536 * b2 + 16777216 * b3.

(** [writeData]: the output stream is the list of bytes written so far. *)
Definition writeData (n : SemanticOcTreeNode) (s : list Z) : list Z :=
  (s ++ value_bytes (value n)) ++ [r (color n); g (color n); b (color n)].

(** [readData]: the input stream is the list of bytes still to be read;
    [None] is a read past the end of the stream. *)
Definition readData (n : SemanticOcTreeNode) (s : list Z)
    : option (SemanticOcTreeNode * list Z) :=
  match s with
  | b0 :: b1 :: b2 :: b3 :: cr :: cg :: cb :: s' =>
      Some (mkNode (value_of_bytes b0 b1 b2 b3) (mkColor cr cg cb)
                   (semantics n) (children n), s')
  | _ => None
  end.

End Node.

Arguments Semantics F : clear implicits.
Arguments SemanticOcTreeNode F : clear implicits.

(** ** The tree *)

Section Tree.

Context {F : Type} `{FloatOps F}.

(** The occupancy a node takes from its children.  It belongs to the base
    class [OcTreeNode], outside this file, and is kept abstract: a function of
    the node's own value and of the values in its child slots. *)
Variable aggregateOccupancy : Z -> list (option Z) -> Z.

(** Modelled from the spec: [OcTreeNode::updateOccupancyChildren] of the
    host library, the "opaque per-node occupancy-aggregation operation";
    it changes the occupancy value only. *)
Definition updateOccupancyChildren (n : SemanticOcTreeNode F) : SemanticOcTreeNode F :=
  set_value n (aggregateOccupancy (value n) (map (fmap value) (child_slots n))).

(** The members of [SemanticOcTree] this code reads: the label-colour map,
    the class count and the inherited [tree_depth] and [root]. *)
Record SemanticOcTree : Type := mkTree {
  label2color : gmap Z (Z * Z * Z);
  num_class : Z;
  tree_depth : nat;
  root : option (SemanticOcTreeNode F)
}.

Definition addColorMap (t : SemanticOcTree) (label2color_map : gmap Z (Z * Z * Z))
    : SemanticOcTree :=
  mkTree label2color_map (num_class t) (tree_depth t) (root t).

(** Modelled from the spec: [nodeHasChildren] of the host library; an inner
    node is "a voxel with at least one child". *)
Definition nodeHasChildren (n : SemanticOcTreeNode F) : bool :=
  existsb (fun ch => match ch with Some _ => true | None => false end) (child_slots n).

(** [averageNodeColor]; the node pointer may be null. *)
Definition averageNodeColor (n : option (SemanticOcTreeNode F)) (r' g' b' : Z)
    : option (SemanticOcTreeNode F) :=
  match n with
  | Some n =>
      if isColorSet n
      then
        let prev_color := getColor n in
        Some (setColor_rgb n ((r prev_color + r') ÷ 2)
                             ((g prev_color + g') ÷ 2)
                             ((b prev_color + b') ÷ 2))
      else Some (setColor_rgb n r' g' b')
  | None => None
  end.

(** The update loop of [averageNodeSemantics] over the indices of the
    observed vector, on a vector [prev] at least as long: [cnt] is
    [prev_semantics.count]. *)
Fixpoint fuse_into (cnt : Z) (prev obs : list F) : list F :=
  match obs with
  | [] => prev
  | x :: obs' =>
      match prev with
      | [] => []
      | p :: prev' =>
          fdiv (fadd (fmul p (of_int cnt)) x) (of_int (u32 (cnt + 1)))
            :: fuse_into cnt prev' obs'
      end
  end.

(** [averageNodeSemantics]; the node pointer may be null. *)
Definition averageNodeSemantics (n : option (SemanticOcTreeNode F)) (obs : list F)
    : option (SemanticOcTreeNode F) :=
  match n with
  | Some n =>
      if isSemanticsSet n
      then
        let prev_semantics := getSemantics n in
        let prev_label :=
          if (length (label prev_semantics) <? length obs)%nat
          then resize (length obs) (label prev_semantics)
          else label prev_semantics in
        let prev_semantics :=
          mkSemantics (fuse_into (count prev_semantics) prev_label obs)
                      (count prev_semantics) in
        Some (addSemanticsCount (normalizeSemantics (setSemantics n prev_semantics)))
      else
        Some (resetSemanticsCount (normalizeSemantics (setSemantics_label n obs)))
  | None => None
  end.

(** Modelled from the spec: [nodeChildExists] and [getNodeChild] of the host
    library, the "child existence test by slot index" and the "child access
    by slot index".  This is the body of the loop over the slots: the
    recursive call [rec] on a child that exists, nothing on an empty slot. *)
Definition on_child (rec : SemanticOcTreeNode F -> option (SemanticOcTreeNode F))
    (slot : option (SemanticOcTreeNode F)) : option (option (SemanticOcTreeNode F)) :=
  match slot with
  | Some ch => ch' ← rec ch; Some (Some ch')
  | None => Some None
  end.

(** The loop over the eight slots, in slot order. *)
Definition on_children (rec : SemanticOcTreeNode F -> option (SemanticOcTreeNode F))
    (a : Array8 (option (SemanticOcTreeNode F)))
    : option (Array8 (option (SemanticOcTreeNode F))) :=
  x0 ← on_child rec (c0 a); x1 ← on_child rec (c1 a);
  x2 ← on_child rec (c2 a); x3 ← on_child rec (c3 a);
  x4 ← on_child rec (c4 a); x5 ← on_child rec (c5 a);
  x6 ← on_child rec (c6 a); x7 ← on_child rec (c7 a);
  Some (mk8 x0 x1 x2 x3 x4 x5 x6 x7).

(** What [updateInnerOccupancyRecurs] does to an inner node once its
    children have been visited. *)
Definition update_inner (t : SemanticOcTree) (node : SemanticOcTreeNode F)
    : option (SemanticOcTreeNode F) :=
  let node := updateOccupancyChildren node in
  let node := updateSemanticsChildren node in
  if decide (size (label2color t) = 0%nat)
  then Some (updateColorChildren node)
  else updateColorChildren_map (label2color t) node.

(** [updateInnerOccupancyRecurs]. *)
Fixpoint updateInnerOccupancyRecurs (t : SemanticOcTree) (node : SemanticOcTreeNode F)
    (depth : nat) {struct node} : option (SemanticOcTreeNode F) :=
  if nodeHasChildren node
  then
    cs ← (if (depth <? tree_depth t)%nat
          then
            match children node with
            | Some a =>
                a' ← on_children (fun ch => updateInnerOccupancyRecurs t ch (S depth)) a;
                Some (Some a')
            | None => Some None
            end
          else Some (children node));
    update_inner t (set_children node cs)
  else updateColorChildren_map (label2color t) node.

(** [updateInnerOccupancy].  The code passes [root] on without a null check;
    the call is modelled on a tree that has a root. *)
Definition updateInnerOccupancy (t : SemanticOcTree) : option SemanticOcTree :=
  match root t with
  | Some n =>
      n' ← updateInnerOccupancyRecurs t n 0;
      Some (mkTree (label2color t) (num_class t) (tree_depth t) (Some n'))
  | None => None
  end.

End Tree.

Arguments SemanticOcTree F : clear implicits.


(** * Vocabulary of the properties *)

Section FusionVocabulary.

Context {F : Type} `{FloatOps F}.

(** The value the update loop of [averageNodeSemantics] stores at one
    position. *)
Definition fused_entry (cnt : Z) (p o : F) : F :=
  fdiv (fadd (fmul p (of_int cnt)) o) (of_int (u32 (cnt + 1))).

(** The vector that [averageNodeSemantics] hands to the normalisation
    when the node already has semantics. *)
Definition fused_label (s : Semantics F) (obs : list F) : list F :=
  fuse_into (count s)
    (if (length (label s) <? length obs)%nat then resize (length obs) (label s) else label s)
    obs.

End FusionVocabulary.

Section NodePredicates.

Context {F : Type}.
Variable P : SemanticOcTreeNode F -> Prop.

(** [P] holds of the child in a slot, if there is one. *)
Definition slot_all (slot : option (SemanticOcTreeNode F)) : Prop :=
  match slot with
  | Some ch => P ch
  | None => True
  end.

(** [P] holds of every child. *)
Definition children_all (cs : option (Array8 (option (SemanticOcTreeNode F)))) : Prop :=
  match cs with
  | Some a =>
      slot_all (c0 a) /\ slot_all (c1 a) /\ slot_all (c2 a) /\ slot_all (c3 a)
      /\ slot_all (c4 a) /\ slot_all (c5 a) /\ slot_all (c6 a) /\ slot_all (c7 a)
  | None => True
  end.

End NodePredicates.

Section LabelOrder.

Import Binary32.

(** [i] is the position of the largest entry of [l], the first one among
    equal entries: no entry exceeds [l[i]] and every earlier entry is
    strictly smaller. *)
Definition first_max (l : list float32) (i : nat) : Prop :=
  exists m, l !! i = Some m
    /\ (forall j x, l !! j = Some x -> leb x m = true)
    /\ (forall j x, (j < i)%nat -> l !! j = Some x -> ltb x m = true).

(** The entries of a label distribution are non-negative numbers. *)
Definition nonneg (x : float32) : Prop := leb zero x = true.

End LabelOrder.

(** ** Sample nodes and trees *)

(** A node whose only child, in slot 0, is [ch]. *)
Definition only_child {F} (ch : SemanticOcTreeNode F)
    : option (Array8 (option (SemanticOcTreeNode F))) :=
  Some (mk8 (Some ch) None None None None None None None).

Section Samples.

Import Binary32.

(** A leaf that carries the label vector [l]. *)
Definition node_with_label (l : list float32) : SemanticOcTreeNode float32 :=
  mkNode 0 default_color (mkSemantics l 1) None.

(** An occupancy aggregation that keeps the node's own value. *)
Definition keep_occupancy (v : Z) (_ : list (option Z)) : Z := v.

Definition two_class_map : gmap Z (Z * Z * Z) :=
  <[0 := (200, 0, 0)]> (<[1 := (0, 200, 0)]> ∅).

Definition tree_with_map : SemanticOcTree float32 := mkTree two_class_map 2 16 None.
Definition tree_without_map : SemanticOcTree float32 := mkTree ∅ 2 16 None.

Definition coloured_leaf : SemanticOcTreeNode float32 :=
  mkNode 0 (mkColor 10 20 30) Semantics_default None.

Definition labelled_leaf : SemanticOcTreeNode float32 :=
  mkNode 0 (mkColor 10 20 30) (mkSemantics [ratio 1 4; ratio 3 4] 1) None.

(** An inner node with one child and left-over colour and semantics. *)
Definition stale_parent (ch : SemanticOcTreeNode float32) : SemanticOcTreeNode float32 :=
  mkNode 0 (mkColor 1 2 3) (mkSemantics [ratio 1 2; ratio 1 2] 3) (only_child ch).

End Samples.

(** ** Vocabulary of the further properties *)

Section ChildVocabulary.

Context {F : Type} `{FloatOps F}.

(** The colour a child slot contributes to the average: that of an existing
    child whose colour is set. *)
Definition slot_color (slot : option (SemanticOcTreeNode F)) : option Color :=
  match slot with
  | Some ch => if isColorSet ch then Some (color ch) else None
  | None => None
  end.

(** The colours that enter the average of a node, in slot order. *)
Definition set_child_colors (n : SemanticOcTreeNode F) : list Color :=
  omap slot_color (child_slots n).

(** The sum of one channel over a list of colours. *)
Definition sum_channel (f : Color -> Z) (cs : list Color) : Z :=
  foldr (fun c acc => f c + acc) 0 cs.

(** The label vector a child slot contributes: that of an existing child
    with semantics. *)
Definition slot_label (slot : option (SemanticOcTreeNode F)) : option (list F) :=
  match slot with
  | Some ch => if isSemanticsSet ch then Some (label (semantics ch)) else None
  | None => None
  end.

(** The label vectors that enter the average of a node, in slot order. *)
Definition set_child_labels (n : SemanticOcTreeNode F) : list (list F) :=
  omap slot_label (child_slots n).

(** The length of the longest vector of a list. *)
Definition max_length (ls : list (list F)) : nat :=
  foldr (fun l acc => Nat.max (length l) acc) 0%nat ls.

End ChildVocabulary.

Section TreeVocabulary.

Context {F : Type} `{FloatOps F}.

(** Two slots are both empty, or both hold a child and the children are
    related by [R]. *)
Definition slot_rel (R : SemanticOcTreeNode F -> SemanticOcTreeNode F -> Prop)
    (o o' : option (SemanticOcTreeNode F)) : Prop :=
  match o, o' with
  | Some ch, Some ch' => R ch ch'
  | None, None => True
  | _, _ => False
  end.

(** The number of levels below a node that has a child array. *)
Fixpoint height (n : SemanticOcTreeNode F) : nat :=
  let slot (o : option (SemanticOcTreeNode F)) : nat :=
    match o with
    | Some ch => height ch
    | None => 0%nat
    end in
  match children n with
  | None => 0%nat
  | Some a =>
      S (foldr Nat.max 0%nat
           [slot (c0 a); slot (c1 a); slot (c2 a); slot (c3 a);
            slot (c4 a); slot (c5 a); slot (c6 a); slot (c7 a)])
  end.

(** The occupancy value and the semantics of the leaves below a node, in
    slot order. *)
Fixpoint leaves (n : SemanticOcTreeNode F) : list (Z * Semantics F) :=
  let slot (o : option (SemanticOcTreeNode F)) : list (Z * Semantics F) :=
    match o with
    | Some ch => leaves ch
    | None => []
    end in
  match children n with
  | None => [(value n, semantics n)]
  | Some a =>
      if nodeHasChildren n
      then slot (c0 a) ++ slot (c1 a) ++ slot (c2 a) ++ slot (c3 a)
           ++ slot (c4 a) ++ slot (c5 a) ++ slot (c6 a) ++ slot (c7 a)
      else [(value n, semantics n)]
  end.

(** The shape of the tree below a node: the same nodes in the same slots,
    with the data erased. *)
Fixpoint skeleton (n : SemanticOcTreeNode F) : SemanticOcTreeNode F :=
  let slot (o : option (SemanticOcTreeNode F)) : option (SemanticOcTreeNode F) :=
    match o with
    | Some ch => Some (skeleton ch)
    | None => None
    end in
  mkNode 0 default_color Semantics_default
    (match children n with
     | None => None
     | Some a =>
         Some (mk8 (slot (c0 a)) (slot (c1 a)) (slot (c2 a)) (slot (c3 a))
                   (slot (c4 a)) (slot (c5 a)) (slot (c6 a)) (slot (c7 a)))
     end).

(** [P] holds of a node and of every node below it. *)
Fixpoint all_nodes (P : SemanticOcTreeNode F -> Prop) (n : SemanticOcTreeNode F) : Prop :=
  let slot (o : option (SemanticOcTreeNode F)) : Prop :=
    match o with
    | Some ch => all_nodes P ch
    | None => True
    end in
  P n
  /\ match children n with
     | None => True
     | Some a =>
         slot (c0 a) /\ slot (c1 a) /\ slot (c2 a) /\ slot (c3 a)
         /\ slot (c4 a) /\ slot (c5 a) /\ slot (c6 a) /\ slot (c7 a)
     end.

(** The colour and, on an inner node, the semantics of a node are the ones
    its children and the label-colour map give. *)
Definition summary_ok (label2color : gmap Z (Z * Z * Z)) (n : SemanticOcTreeNode F) : Prop :=
  getAverageChildColor_map label2color n = Some (color n)
  /\ (nodeHasChildren n = true -> semantics n = getAverageChildSemantics n).

(** [summary_ok] at a node visited at depth [d] and at every node the pass
    reaches below it: the recursion stops at [tree_depth]. *)
Fixpoint summaries_ok (label2color : gmap Z (Z * Z * Z)) (tree_depth : nat)
    (n : SemanticOcTreeNode F) (d : nat) {struct n} : Prop :=
  let slot (o : option (SemanticOcTreeNode F)) : Prop :=
    match o with
    | Some ch => summaries_ok label2color tree_depth ch (S d)
    | None => True
    end in
  summary_ok label2color n
  /\ ((d < tree_depth)%nat ->
      match children n with
      | None => True
      | Some a =>
          slot (c0 a) /\ slot (c1 a) /\ slot (c2 a) /\ slot (c3 a)
          /\ slot (c4 a) /\ slot (c5 a) /\ slot (c6 a) /\ slot (c7 a)
      end).

End TreeVocabulary.

Section PassVocabulary.

Context {F : Type} `{FloatOps F}.
Variable aggregateOccupancy : Z -> list (option Z) -> Z.

(** The node [update_inner] builds, up to its colour. *)
Definition inner_summary (node : SemanticOcTreeNode F) : SemanticOcTreeNode F :=
  updateSemanticsChildren (updateOccupancyChildren aggregateOccupancy node).

(** The children an inner node has when its summary is computed: the
    results of the recursive calls above [tree_depth], its own children
    otherwise. *)
Definition visited_children (t : SemanticOcTree F) (node : SemanticOcTreeNode F)
    (depth : nat) (cs' : option (Array8 (option (SemanticOcTreeNode F)))) : Prop :=
  if (depth <? tree_depth t)%nat
  then
    exists a a',
      children node = Some a /\ cs' = Some a'
      /\ Forall2 (slot_rel (fun ch ch' => updateInnerOccupancyRecurs aggregateOccupancy t ch (S depth) = Some ch'))
                 (to_list8 a) (to_list8 a')
  else cs' = children node.

End PassVocabulary.

Section MoreSamples.

Import Binary32.


(** A leaf whose most probable class, 2, has no entry in [two_class_map]. *)
Definition unmapped_leaf : SemanticOcTreeNode float32 :=
  mkNode 0 default_color (mkSemantics [zero; ratio 1 4; ratio 3 4] 1) None.

(** An inner node over a labelled leaf, an unlabelled coloured leaf and an
    inner node with one labelled leaf of its own. *)
Definition sample_tree : SemanticOcTreeNode float32 :=
  mkNode 5 (mkColor 9 9 9) Semantics_default
    (Some (mk8 (Some labelled_leaf) None (Some coloured_leaf) None
               None (Some (stale_parent labelled_leaf)) None None)).

End MoreSamples.

(** * Properties *)

(** ** The order of binary32 values *)

Module Binary32Order.

Import Binary32.

Ltac cases_compare :=
  repeat match goal with
  | H : context [Z.compare ?x ?y] |- _ => destruct (Z.compare_spec x y)
  | |- context [Z.compare ?x ?y] => destruct (Z.compare_spec x y)
  | H : context [Pos.compare_cont Eq ?x ?y] |- _ =>
      change (Pos.compare_cont Eq x y) with (Pos.compare x y) in H;
      destruct (Pos.compare_spec x y)
  | |- context [Pos.compare_cont Eq ?x ?y] =>
      change (Pos.compare_cont Eq x y) with (Pos.compare x y);
      destruct (Pos.compare_spec x y)
  end.

Ltac by_cases3 a b c :=
  unfold leb, ltb, SFleb, SFltb, SFcompare;
  destruct a as [[]|[]| |[] ? ?]; destruct b as [[]|[]| |[] ? ?];
  destruct c as [[]|[]| |[] ? ?];
  simpl; try done; cases_compare; simpl; try done; lia.

Lemma leb_trans a b c : leb a b = true -> leb b c = true -> leb a c = true.
Proof. by_cases3 a b c. Qed.

Lemma ltb_leb_trans a b c : ltb a b = true -> leb b c = true -> ltb a c = true.
Proof. by_cases3 a b c. Qed.

Lemma leb_ltb_trans a b c : leb a b = true -> ltb b c = true -> ltb a c = true.
Proof. by_cases3 a b c. Qed.

Lemma ltb_leb a b : ltb a b = true -> leb a b = true.
Proof.
  unfold ltb, leb, SFltb, SFleb. destruct (SFcompare a b) as [[]|]; done.
Qed.

Lemma ltb_not_leb a b : ltb a b = true -> leb b a = false.
Proof.
  unfold leb, ltb, SFleb, SFltb, SFcompare.
  destruct a as [[]|[]| |[] ? ?]; destruct b as [[]|[]| |[] ? ?];
    simpl; try done; cases_compare; simpl; try done; lia.
Qed.

Lemma leb_not_ltb a b : leb a b = true -> ltb b a = false.
Proof.
  intros Hle. destruct (ltb b a) eqn:Hlt; [|done].
  apply ltb_not_leb in Hlt. congruence.
Qed.

Lemma leb_not_nan_l a b : leb a b = true -> is_nan a = false.
Proof. destruct a; done. Qed.

Lemma leb_not_nan_r a b : leb a b = true -> is_nan b = false.
Proof. destruct a as [[]|[]| |[] ? ?], b; done. Qed.

Lemma leb_refl a : is_nan a = false -> leb a a = true.
Proof.
  unfold leb, SFleb, SFcompare.
  destruct a as [[]|[]| |[] m e]; simpl; try done;
    rewrite Z.compare_refl; change (Pos.compare_cont Eq m m) with (Pos.compare m m);
    rewrite Pos.compare_refl; done.
Qed.

(** Two values that are not NaN are comparable. *)
Lemma not_ltb_leb a b :
  is_nan a = false -> is_nan b = false -> ltb a b = false -> leb b a = true.
Proof.
  unfold leb, ltb, SFleb, SFltb, SFcompare.
  destruct a as [[]|[]| |[] ? ?]; destruct b as [[]|[]| |[] ? ?];
    simpl; try done; cases_compare; simpl; try done; lia.
Qed.

End Binary32Order.

(** ** The most probable label *)

Section Argmax.

Import Binary32 Binary32Order.

Lemma nonneg_not_nan x : nonneg x -> is_nan x = false.
Proof. apply leb_not_nan_r. Qed.

Lemma first_max_unique l i j : first_max l i -> first_max l j -> i = j.
Proof.
  intros (m & Hm & Hge & Hlt) (m' & Hm' & Hge' & Hlt').
  destruct (Nat.lt_trichotomy i j) as [Hij|[->|Hij]]; [|done|].
  - specialize (Hlt' _ _ Hij Hm). specialize (Hge _ _ Hm').
    apply ltb_not_leb in Hlt'. congruence.
  - specialize (Hlt _ _ Hij Hm'). specialize (Hge' _ _ Hm).
    apply ltb_not_leb in Hlt. congruence.
Qed.

Lemma first_max_singleton x : is_nan x = false -> first_max [x] 0.
Proof.
  intros Hx. exists x. split; [done|]. split.
  - intros [|j] y Hy; simpl in Hy; [|by rewrite lookup_nil in Hy].
    injection Hy as <-. by apply leb_refl.
  - intros j y Hj. lia.
Qed.

(** A later entry that exceeds the current best becomes the first maximum. *)
Lemma first_max_snoc_new pre i m bound x :
  first_max pre i -> pre !! i = Some m ->
  leb m bound = true -> ltb bound x = true ->
  first_max (pre ++ [x]) (length pre).
Proof.
  intros (m' & Hm' & Hge & Hlt) Hm Hmb Hbx.
  assert (m' = m) as -> by congruence.
  assert (Hmx : ltb m x = true) by (eapply leb_ltb_trans; eauto).
  exists x. split.
  { rewrite lookup_app_r by lia. by rewrite Nat.sub_diag. }
  assert (Hall : forall j y, pre !! j = Some y -> ltb y x = true).
  { intros j y Hy. eapply leb_ltb_trans; [|exact Hmx]. eauto. }
  split.
  - intros j y Hy. destruct (decide (j < length pre)%nat) as [Hj|Hj].
    + rewrite lookup_app_l in Hy by done. apply ltb_leb. eauto.
    + rewrite lookup_app_r in Hy by lia.
      destruct (j - length pre)%nat eqn:E; simpl in Hy; [|by rewrite lookup_nil in Hy].
      injection Hy as <-. apply leb_refl.
      apply ltb_leb in Hmx. eapply leb_not_nan_r; eauto.
  - intros j y Hj Hy. rewrite lookup_app_l in Hy by done. eauto.
Qed.

(** A later entry that does not exceed the current best leaves it in
    place. *)
Lemma first_max_snoc_keep pre i m bound x :
  first_max pre i -> pre !! i = Some m ->
  leb bound m = true -> is_nan x = false -> ltb bound x = false ->
  first_max (pre ++ [x]) i.
Proof.
  intros (m' & Hm' & Hge & Hlt) Hm Hbm Hx Hbx.
  assert (m' = m) as -> by congruence.
  assert (Hi : (i < length pre)%nat) by (eapply lookup_lt_Some; eauto).
  exists m. split; [by rewrite lookup_app_l|]. split.
  - intros j y Hy. destruct (decide (j < length pre)%nat) as [Hj|Hj].
    + rewrite lookup_app_l in Hy by done. eauto.
    + rewrite lookup_app_r in Hy by lia.
      destruct (j - length pre)%nat eqn:E; simpl in Hy; [|by rewrite lookup_nil in Hy].
      injection Hy as <-. eapply leb_trans; [|exact Hbm].
      apply not_ltb_leb; [|done|done]. eapply leb_not_nan_l; eauto.
  - intros j y Hj Hy. rewrite lookup_app_l in Hy by lia. eauto.
Qed.

(** The scan of [std::max_element], started on a prefix already scanned. *)
Lemma max_element_from_spec rest : forall pre best bestv,
  Forall (fun x => is_nan x = false) rest ->
  first_max pre best -> pre !! best = Some bestv ->
  first_max (pre ++ rest) (max_element_from best bestv (length pre) rest).
Proof.
  induction rest as [|x rest IH]; intros pre best bestv Hnan Hmax Hbest; simpl.
  - by rewrite app_nil_r.
  - inversion Hnan as [|? ? Hx Hrest]; subst.
    assert (Hb : is_nan bestv = false).
    { destruct Hmax as (m & Hm & Hge & _). eapply leb_not_nan_l. eapply Hge; eauto. }
    change (flt bestv x) with (ltb bestv x).
    replace (pre ++ x :: rest) with ((pre ++ [x]) ++ rest) by (by rewrite <- app_assoc).
    replace (S (length pre)) with (length (pre ++ [x])) by (rewrite length_app; simpl; lia).
    destruct (ltb bestv x) eqn:Hlt.
    + replace (length pre) with (length (pre ++ [x]) - 1)%nat at 1
        by (rewrite length_app; simpl; lia).
      replace (length (pre ++ [x]) - 1)%nat with (length pre)
        by (rewrite length_app; simpl; lia).
      apply IH; [done| |].
      * eapply first_max_snoc_new; eauto. by apply leb_refl.
      * rewrite lookup_app_r by lia. by rewrite Nat.sub_diag.
    + apply IH; [done| |].
      * eapply first_max_snoc_keep; eauto. by apply leb_refl.
      * apply lookup_app_l_Some. done.
Qed.

Lemma max_element_spec (l : list float32) :
  l <> [] -> Forall (fun x => is_nan x = false) l -> first_max l (max_element l).
Proof.
  destruct l as [|x l]; [done|]. intros _ Hnan.
  inversion Hnan as [|? ? Hx Hrest]; subst.
  change (first_max ([x] ++ l) (max_element_from 0 x (length [x]) l)).
  apply max_element_from_spec; [done| |done]. by apply first_max_singleton.
Qed.

(** The scan of [getSemanticLabel], started on a non-empty prefix already
    scanned: the local [max] is as large as the best entry seen. *)
Lemma getSemanticLabel_loop_spec rest : forall pre idx m max,
  Forall (fun x => is_nan x = false) rest ->
  first_max pre idx -> pre !! idx = Some m ->
  leb m max = true -> leb max m = true ->
  exists idx',
    getSemanticLabel_loop (Z.of_nat idx) max (length pre) rest = Z.of_nat idx'
    /\ first_max (pre ++ rest) idx'.
Proof.
  induction rest as [|x rest IH]; intros pre idx m max Hnan Hmax Hm Hle Hge; simpl.
  - exists idx. by rewrite app_nil_r.
  - inversion Hnan as [|? ? Hx Hrest]; subst.
    change (flt max x) with (ltb max x).
    replace (pre ++ x :: rest) with ((pre ++ [x]) ++ rest) by (by rewrite <- app_assoc).
    replace (S (length pre)) with (length (pre ++ [x])) by (rewrite length_app; simpl; lia).
    destruct (ltb max x) eqn:Hlt.
    + apply (IH (pre ++ [x]) (length pre) x x); [done| | | |].
      * eapply first_max_snoc_new; eauto.
      * rewrite lookup_app_r by lia. by rewrite Nat.sub_diag.
      * by apply leb_refl.
      * by apply leb_refl.
    + apply (IH (pre ++ [x]) idx m max); [done| | |done|done].
      * eapply first_max_snoc_keep; eauto.
      * apply lookup_app_l_Some. done.
Qed.

Lemma getSemanticLabel_loop_nonneg (l : list float32) :
  l <> [] -> Forall nonneg l ->
  exists idx, getSemanticLabel_loop 0 fzero 0 l = Z.of_nat idx /\ first_max l idx.
Proof.
  destruct l as [|x l]; [done|]. intros _ Hnn.
  inversion Hnn as [|? ? Hx Hrest]; subst.
  assert (Hnan : Forall (fun x => is_nan x = false) l).
  { eapply Forall_impl; [exact Hrest|]. apply nonneg_not_nan. }
  pose proof (nonneg_not_nan _ Hx) as Hxn.
  simpl. change (flt fzero x) with (ltb zero x).
  destruct (ltb zero x) eqn:Hlt.
  - apply (getSemanticLabel_loop_spec l [x] 0%nat x x); try done.
    + by apply first_max_singleton.
    + by apply leb_refl.
    + by apply leb_refl.
  - apply (getSemanticLabel_loop_spec l [x] 0%nat x zero); try done.
    + by apply first_max_singleton.
    + by apply not_ltb_leb.
Qed.

(** The scan never reports a position outside the vector, and reports
    the initial label when no entry exceeds the running maximum. *)
Lemma getSemanticLabel_loop_range {F} `{FloatOps F} (l : list F) : forall lbl max c,
  getSemanticLabel_loop lbl max c l = lbl
  \/ Z.of_nat c <= getSemanticLabel_loop lbl max c l < Z.of_nat c + Z.of_nat (length l).
Proof.
  induction l as [|x l IH]; intros lbl max c; simpl; [by left|].
  destruct (flt max x).
  - right. destruct (IH (Z.of_nat c) x (S c)) as [->|?]; lia.
  - destruct (IH lbl max (S c)) as [->|?]; [by left|right; lia].
Qed.

Lemma getSemanticLabel_loop_no_greater {F} `{FloatOps F} (l : list F) : forall lbl max c,
  Forall (fun x => flt max x = false) l ->
  getSemanticLabel_loop lbl max c l = lbl.
Proof.
  induction l as [|x l IH]; intros lbl max c Hall; simpl; [done|].
  inversion Hall as [|? ? Hx Hrest]; subst. rewrite Hx. by apply IH.
Qed.

End Argmax.

Section ArgmaxClaims.

Import Binary32 Binary32Order.

(** C8.  On a non-empty label distribution (entries non-negative, as the
    data model has them) both scans used for the most probable label,
    [getSemanticLabel] and the [std::max_element] of
    [getAverageChildColor(label2color)], return the position of the
    largest entry, the first one among equal maxima; on
    [[0.4, 0.4, 0.2]] they return 0. *)
Theorem argmaxLabel_first_largest :
  (forall n : SemanticOcTreeNode float32,
     label (semantics n) <> [] ->
     Forall nonneg (label (semantics n)) ->
     (exists idx, getSemanticLabel n = Z.of_nat idx
                  /\ first_max (label (semantics n)) idx)
     /\ first_max (label (semantics n)) (max_element (label (semantics n))))
  /\ getSemanticLabel (node_with_label [ratio 2 5; ratio 2 5; ratio 1 5]) = 0
  /\ max_element [ratio 2 5; ratio 2 5; ratio 1 5] = 0%nat.
Proof.
  split; [|split; reflexivity].
  intros n Hne Hnn. split.
  - by apply getSemanticLabel_loop_nonneg.
  - apply max_element_spec; [done|].
    eapply Forall_impl; [exact Hnn|]. apply nonneg_not_nan.
Qed.

Lemma argmaxLabel_first_largest_witness :
  let l := [ratio 1 10; ratio 7 10; ratio 7 10] in
  (exists idx, getSemanticLabel (node_with_label l) = Z.of_nat idx /\ first_max l idx)
  /\ first_max l (max_element l).
Proof.
  intros l. apply (proj1 argmaxLabel_first_largest (node_with_label l)).
  - discriminate.
  - repeat constructor.
Defined.

(** C10.  [getSemanticLabel] returns a value on every distribution: it is 0
    or a position inside the vector, and it is 0 on the empty distribution
    and on every distribution whose entries are all at most 0, since the
    scan starts from label 0 and maximum 0 and moves only to a strictly
    greater entry. *)
Theorem getSemanticLabel_total_default (n : SemanticOcTreeNode float32) :
  (getSemanticLabel n = 0
   \/ 0 < getSemanticLabel n < Z.of_nat (length (label (semantics n))))
  /\ (label (semantics n) = [] -> getSemanticLabel n = 0)
  /\ (Forall (fun x => leb x zero = true) (label (semantics n)) ->
      getSemanticLabel n = 0).
Proof.
  unfold getSemanticLabel. split; [|split].
  - destruct (getSemanticLabel_loop_range (label (semantics n)) 0 fzero 0) as [->|?];
      [by left|].
    destruct (decide (getSemanticLabel_loop 0 fzero 0 (label (semantics n)) = 0));
      [by left|right; lia].
  - by intros ->.
  - intros Hall. apply getSemanticLabel_loop_no_greater.
    eapply Forall_impl; [exact Hall|]. intros x Hx. by apply leb_not_ltb.
Qed.

Lemma getSemanticLabel_total_default_witness :
  getSemanticLabel (node_with_label [zero; SFopp (ratio 1 2); zero]) = 0.
Proof.
  apply (getSemanticLabel_total_default (node_with_label [zero; SFopp (ratio 1 2); zero])).
  repeat constructor.
Defined.

(** Outside the data model the two scans part: with negative entries
    only, [getSemanticLabel] stays at 0 while [std::max_element] finds the
    largest entry. *)
Example scans_differ_on_negative_entries :
  let l := [SFopp (ratio 1 1); SFopp (ratio 1 2)] in
  getSemanticLabel (node_with_label l) = 0 /\ max_element l = 1%nat.
Proof. split; reflexivity. Qed.

End ArgmaxClaims.

(** ** Normalisation *)

Section NormalizeGeneric.

Context {F : Type} `{FloatOps F}.

Lemma map_const_replicate {A B} (y : B) (l : list A) :
  map (fun _ => y) l = replicate (length l) y.
Proof. induction l as [|x l IH]; simpl; [done|by rewrite IH]. Qed.


Lemma normalize_not_positive (l : list F) :
  flt fzero (sum_labels l) = false ->
  normalize l = replicate (length l) (inv_size (length l)).
Proof. intros Hpos. unfold normalize. rewrite Hpos. apply map_const_replicate. Qed.

Lemma normalize_nil : normalize (@nil F) = [].
Proof. unfold normalize, sum_labels. simpl. by destruct (flt fzero fzero). Qed.

Lemma normalize_length (l : list F) : length (normalize l) = length l.
Proof. unfold normalize. destruct (flt _ _); by rewrite length_map. Qed.

End NormalizeGeneric.


Section NormalizeClaims.

Import Binary32 Binary32Order.





End NormalizeClaims.

(** ** Fusion of one observation into a node *)

Section FusionGeneric.

Context {F : Type} `{FloatOps F}.

Lemma resize_length (n : nat) (l : list F) :
  (length l <= n)%nat -> length (resize n l) = n.
Proof.
  intros Hn. unfold resize.
  rewrite length_app, length_take, length_replicate. lia.
Qed.

Lemma resize_lookup (n : nat) (l : list F) (i : nat) :
  (length l <= n)%nat -> (i < n)%nat ->
  resize n l !! i = Some (default fzero (l !! i)).
Proof.
  intros Hn Hi. unfold resize. rewrite take_ge by done.
  destruct (decide (i < length l)%nat) as [Hl|Hl].
  - rewrite lookup_app_l by done.
    destruct (lookup_lt_is_Some_2 l i Hl) as [x Hx]. by rewrite Hx.
  - rewrite lookup_app_r by lia. rewrite lookup_replicate_2 by lia.
    by rewrite lookup_ge_None_2 by lia.
Qed.

Lemma fuse_into_length cnt (obs : list F) : forall prev,
  (length obs <= length prev)%nat -> length (fuse_into cnt prev obs) = length prev.
Proof.
  induction obs as [|o obs IH]; intros [|p prev] Hlen; simpl in *; try done; try lia.
  rewrite IH; [done|lia].
Qed.

Lemma fuse_into_lookup_obs cnt (obs : list F) : forall prev i o p,
  obs !! i = Some o -> prev !! i = Some p ->
  fuse_into cnt prev obs !! i = Some (fused_entry cnt p o).
Proof.
  induction obs as [|o' obs IH]; intros [|p' prev] i o p Ho Hp; try done.
  destruct i as [|i]; simpl in *.
  - by injection Ho as <-; injection Hp as <-.
  - by apply IH.
Qed.

Lemma fuse_into_lookup_rest cnt (obs : list F) : forall prev i,
  (length obs <= i)%nat -> (length obs <= length prev)%nat ->
  fuse_into cnt prev obs !! i = prev !! i.
Proof.
  induction obs as [|o' obs IH]; intros [|p' prev] i Hi Hlen; simpl in *; try done; try lia.
  destruct i as [|i]; [lia|]. simpl. apply IH; lia.
Qed.

Lemma fused_label_length s obs :
  length (fused_label s obs) = Nat.max (length (label s)) (length obs).
Proof.
  unfold fused_label. destruct (Nat.ltb_spec (length (label s)) (length obs)).
  - rewrite fuse_into_length; rewrite resize_length; lia.
  - rewrite fuse_into_length; lia.
Qed.

Lemma fused_label_lookup_obs s obs i o :
  obs !! i = Some o ->
  fused_label s obs !! i = Some (fused_entry (count s) (default fzero (label s !! i)) o).
Proof.
  intros Ho. pose proof (lookup_lt_Some _ _ _ Ho) as Hi.
  unfold fused_label. apply fuse_into_lookup_obs; [done|].
  destruct (Nat.ltb_spec (length (label s)) (length obs)).
  - apply resize_lookup; lia.
  - destruct (lookup_lt_is_Some_2 (label s) i) as [x Hx]; [lia|]. by rewrite Hx.
Qed.

Lemma fused_label_lookup_rest s obs i :
  (length obs <= i)%nat -> fused_label s obs !! i = label s !! i.
Proof.
  intros Hi. unfold fused_label.
  destruct (Nat.ltb_spec (length (label s)) (length obs)).
  - rewrite fuse_into_lookup_rest; [|done|rewrite resize_length; lia].
    rewrite lookup_ge_None_2 by (rewrite resize_length; lia).
    by rewrite lookup_ge_None_2 by lia.
  - by rewrite fuse_into_lookup_rest by lia.
Qed.

Lemma averageNodeSemantics_set (n : SemanticOcTreeNode F) obs :
  isSemanticsSet n = true ->
  averageNodeSemantics (Some n) obs
  = Some (setSemantics n (mkSemantics (normalize (fused_label (semantics n) obs))
                                      (u32 (count (semantics n) + 1)))).
Proof. intros Hset. unfold averageNodeSemantics. by rewrite Hset. Qed.

Lemma averageNodeSemantics_unset (n : SemanticOcTreeNode F) obs :
  isSemanticsSet n = false ->
  averageNodeSemantics (Some n) obs
  = Some (setSemantics n (mkSemantics (normalize obs) 1)).
Proof. intros Hset. unfold averageNodeSemantics. by rewrite Hset. Qed.

End FusionGeneric.

Lemma u32_succ (c : Z) : 0 <= c < 4294967295 -> u32 (c + 1) = c + 1.
Proof. intros Hc. unfold u32. apply Z.mod_small. lia. Qed.

Section FusionClaims.

Import Binary32.

(** C3.  Fusing an observed vector into a node.  When the node has
    semantics (and its count is below the largest [unsigned int]) the entry
    at each index [i] of the observed vector becomes
    [(label[i] * count + observed[i]) / (count + 1)], a missing [label[i]]
    counting as 0 and the entries past the observed vector staying as they
    are; the vector is then normalised and the count goes up by 1.  When the
    node has no semantics the observed vector is taken as it is,
    normalised, and the count is 1.  Fusing [[1.0, 0.0]] into
    ([[0.5, 0.5]], count 1) gives [[0.75, 0.25]] and count 2. *)
Theorem averageNodeSemantics_fusion :
  (forall (n : SemanticOcTreeNode float32) (obs : list float32),
     isSemanticsSet n = true ->
     0 <= count (semantics n) < 4294967295 ->
     exists fused,
       averageNodeSemantics (Some n) obs
       = Some (setSemantics n (mkSemantics (normalize fused) (count (semantics n) + 1)))
       /\ length fused = Nat.max (length (label (semantics n))) (length obs)
       /\ (forall i o, obs !! i = Some o ->
             fused !! i
             = Some (div (add (mul (default zero (label (semantics n) !! i))
                                   (of_Z (count (semantics n)))) o)
                         (of_Z (count (semantics n) + 1))))
       /\ (forall i, (length obs <= i)%nat -> fused !! i = label (semantics n) !! i))
  /\ (forall (n : SemanticOcTreeNode float32) (obs : list float32),
        isSemanticsSet n = false ->
        averageNodeSemantics (Some n) obs
        = Some (setSemantics n (mkSemantics (normalize obs) 1)))
  /\ averageNodeSemantics
       (Some (mkNode 0 default_color (mkSemantics [ratio 1 2; ratio 1 2] 1) None))
       [ratio 1 1; zero]
     = Some (mkNode 0 default_color (mkSemantics [ratio 3 4; ratio 1 4] 2) None).
Proof.
  split; [|split; [|reflexivity]].
  - intros n obs Hset Hcnt. exists (fused_label (semantics n) obs).
    rewrite <- (u32_succ _ Hcnt) at 1.
    split; [by apply averageNodeSemantics_set|].
    split; [apply fused_label_length|]. split.
    + intros i o Ho. rewrite (fused_label_lookup_obs _ _ _ _ Ho).
      unfold fused_entry. by rewrite (u32_succ _ Hcnt).
    + intros i Hi. by apply fused_label_lookup_rest.
  - intros n obs Hset. by apply averageNodeSemantics_unset.
Qed.

Lemma averageNodeSemantics_fusion_witness :
  (exists fused,
     averageNodeSemantics
       (Some (mkNode 7 (mkColor 1 2 3) (mkSemantics [ratio 1 4; ratio 3 4] 3) None))
       [zero; ratio 1 1; zero]
     = Some (mkNode 7 (mkColor 1 2 3) (mkSemantics (normalize fused) 4) None)
     /\ fused !! 1%nat = Some (div (add (mul (ratio 3 4) (of_Z 3)) (ratio 1 1)) (of_Z 4))
     /\ fused !! 2%nat = Some (div (add (mul zero (of_Z 3)) zero) (of_Z 4)))
  /\ averageNodeSemantics (Some (mkNode 7 (mkColor 1 2 3) (mkSemantics [] 0) None))
       [ratio 1 1; ratio 3 1]
     = Some (mkNode 7 (mkColor 1 2 3) (mkSemantics [ratio 1 4; ratio 3 4] 1) None).
Proof.
  destruct averageNodeSemantics_fusion as (Hset & Hunset & _). split.
  - destruct (Hset (mkNode 7 (mkColor 1 2 3) (mkSemantics [ratio 1 4; ratio 3 4] 3) None)
                   [zero; ratio 1 1; zero]) as (fused & Heq & _ & Hobs & _).
    + reflexivity.
    + simpl. lia.
    + exists fused. split; [exact Heq|]. split.
      * exact (Hobs 1%nat (ratio 1 1) eq_refl).
      * exact (Hobs 2%nat zero eq_refl).
  - rewrite Hunset; reflexivity.
Defined.

End FusionClaims.

(** ** Colour blending *)

Section ColorClaims.

Context {F : Type} `{FloatOps F}.

Lemma u8_small (x : Z) : u8_range x -> u8 x = x.
Proof. intros Hx. unfold u8. apply Z.mod_small. exact Hx. Qed.

Lemma u8_mean (x y : Z) : u8_range x -> u8_range y -> u8 ((x + y) ÷ 2) = (x + y) ÷ 2.
Proof.
  unfold u8_range. intros Hx Hy. apply u8_small. unfold u8_range.
  rewrite Z.quot_div_nonneg by lia.
  split; [apply Z.div_pos; lia|apply Z.div_lt_upper_bound; lia].
Qed.

(** C5.  Blending an observed colour into a node.  A node whose colour is
    set (not the white sentinel) gets, channel by channel, the truncated
    integer mean of its colour and the observed one; nothing but the two
    colours enters the result.  A node whose colour is unset gets the
    observed colour itself.  So an unset node blended with (10,20,30) has
    colour (10,20,30), and (10,20,30) blended with (20,20,20) gives
    (15,20,25). *)
Theorem averageNodeColor_blend :
  (forall (n : SemanticOcTreeNode F) (r' g' b' : Z),
     wf_color (color n) -> u8_range r' -> u8_range g' -> u8_range b' ->
     averageNodeColor (Some n) r' g' b'
     = Some (setColor n
               (if isColorSet n
                then mkColor ((r (color n) + r') ÷ 2)
                             ((g (color n) + g') ÷ 2)
                             ((b (color n) + b') ÷ 2)
                else mkColor r' g' b')))
  /\ (forall (v : Z) (s : Semantics F) cs,
        averageNodeColor (Some (mkNode v default_color s cs)) 10 20 30
        = Some (mkNode v (mkColor 10 20 30) s cs))
  /\ (forall (v : Z) (s : Semantics F) cs,
        averageNodeColor (Some (mkNode v (mkColor 10 20 30) s cs)) 20 20 20
        = Some (mkNode v (mkColor 15 20 25) s cs)).
Proof.
  split; [|split; reflexivity].
  intros n r' g' b' (Hr & Hg & Hb) Hr' Hg' Hb'.
  unfold averageNodeColor, setColor_rgb, getColor.
  destruct (isColorSet n).
  - by rewrite !u8_mean.
  - by rewrite !u8_small.
Qed.

End ColorClaims.

Lemma averageNodeColor_blend_witness :
  averageNodeColor
    (Some (mkNode 5 (mkColor 200 255 7) (mkSemantics [Binary32.zero] 9) None)) 101 255 0
  = Some (mkNode 5 (mkColor 150 255 3) (mkSemantics [Binary32.zero] 9) None).
Proof.
  rewrite (proj1 averageNodeColor_blend); [reflexivity| |done|done|done].
  repeat split; done.
Defined.

(** ** Serialisation of a node *)

Section FileIO.

Context {F : Type} `{FloatOps F}.

Lemma value_bytes_roundtrip (v : Z) :
  u32_range v ->
  value_of_bytes (v mod 256) ((v / 256) mod 256) ((v / 65536) mod 256)
                 ((v / 16777216) mod 256) = v.
Proof.
  unfold u32_range, value_of_bytes. intros Hv.
  Z.div_mod_to_equations. lia.
Qed.

Lemma value_bytes_range (v : Z) : Forall u8_range (value_bytes v).
Proof.
  unfold value_bytes, u8_range. repeat constructor; apply Z.mod_pos_bound; lia.
Qed.

(** C7.  [writeData] appends seven bytes to the stream: the four bytes of
    the occupancy value, then the red, green and blue channels, with no
    length prefix and nothing of the semantics.  [readData] on those bytes
    gives back the same occupancy value and the same colour.  The semantics
    of the written node are not in the bytes: the node that is read keeps
    the semantics it had before the read. *)
Theorem writeData_readData_roundtrip
    (n m : SemanticOcTreeNode F) (out rest : list Z) :
  u32_range (value n) -> wf_color (color n) ->
  writeData n out
  = out ++ value_bytes (value n) ++ [r (color n); g (color n); b (color n)]
  /\ Forall u8_range (writeData n [])
  /\ length (writeData n []) = 7%nat
  /\ (forall s, writeData (setSemantics n s) out = writeData n out)
  /\ readData m (writeData n [] ++ rest)
     = Some (mkNode (value n) (color n) (semantics m) (children m), rest).
Proof.
  intros Hv (Hr & Hg & Hb). unfold writeData. split; [by rewrite <- app_assoc|].
  split; [|split; [done|split; [done|]]].
  - simpl. unfold u8_range in *.
    repeat (apply Forall_cons; split; [first [apply Z.mod_pos_bound; lia|done]|]).
    apply Forall_nil_2.
  - simpl. rewrite value_bytes_roundtrip by done. by destruct (color n).
Qed.

End FileIO.

Lemma writeData_readData_roundtrip_witness :
  let n := mkNode 1065353216 (mkColor 10 20 30)
             (mkSemantics [Binary32.ratio 1 4; Binary32.ratio 3 4] 5) None in
  writeData n [] = [0; 0; 128; 63; 10; 20; 30]
  /\ readData (Node_default (F:=Binary32.float32)) (writeData n [] ++ [42])
     = Some (mkNode 1065353216 (mkColor 10 20 30) Semantics_default None, [42]).
Proof.
  intros n.
  destruct (writeData_readData_roundtrip n Node_default [] [42])
    as (Hw & _ & _ & _ & Hr).
  - unfold u32_range. simpl. lia.
  - repeat split; done.
  - split; [rewrite Hw; reflexivity|exact Hr].
Defined.

(** ** Aggregation over the children of one node *)

Section ChildAggregation.

Context {F : Type} `{FloatOps F}.

Lemma fold_color_none (l : list (option (SemanticOcTreeNode F))) acc :
  (forall ch, Some ch ∈ l -> isColorSet ch = false) ->
  fold_left add_child_color l acc = acc.
Proof.
  revert acc. induction l as [|slot l IH]; intros acc Hnone; simpl; [done|].
  rewrite IH by (intros ch Hch; apply Hnone; by right).
  destruct acc as [[[mr mg] mb] c]. destruct slot as [ch|]; simpl; [|done].
  rewrite Hnone; [done|by left].
Qed.

Lemma fold_semantics_none (l : list (option (SemanticOcTreeNode F))) acc :
  (forall ch, Some ch ∈ l -> isSemanticsSet ch = false) ->
  fold_left add_child_semantics l acc = acc.
Proof.
  revert acc. induction l as [|slot l IH]; intros acc Hnone; simpl; [done|].
  rewrite IH by (intros ch Hch; apply Hnone; by right).
  destruct acc as [ml c]. destruct slot as [ch|]; simpl; [|done].
  rewrite Hnone; [done|by left].
Qed.

(** The counter [c] of the accumulation loop never decreases... *)
Lemma fold_semantics_count_mono (l : list (option (SemanticOcTreeNode F))) : forall ml c,
  c <= snd (fold_left add_child_semantics l (ml, c)).
Proof.
  induction l as [|slot l IH]; intros ml c; simpl; [lia|].
  destruct slot as [ch|]; [|apply IH].
  destruct (isSemanticsSet ch); [|apply IH].
  etransitivity; [|apply IH]. lia.
Qed.

(** ... and grows when a child has semantics. *)
Lemma fold_semantics_count_pos (l : list (option (SemanticOcTreeNode F))) : forall ml c ch,
  Some ch ∈ l -> isSemanticsSet ch = true ->
  c < snd (fold_left add_child_semantics l (ml, c)).
Proof.
  induction l as [|slot l IH]; intros ml c ch Hin Hset; [by apply elem_of_nil in Hin|].
  apply elem_of_cons in Hin as [<-|Hin]; simpl.
  - rewrite Hset. eapply Z.lt_le_trans; [|apply fold_semantics_count_mono]. lia.
  - destruct slot as [ch'|]; [|by eapply IH].
    destruct (isSemanticsSet ch'); [|by eapply IH].
    eapply Z.lt_trans; [|by eapply IH]. lia.
Qed.

Lemma getAverageChildSemantics_some (n : SemanticOcTreeNode F) ch :
  Some ch ∈ child_slots n -> isSemanticsSet ch = true ->
  count (getAverageChildSemantics n) = 1.
Proof.
  intros Hin Hset. unfold getAverageChildSemantics.
  pose proof (fold_semantics_count_pos (child_slots n) [] 0 ch Hin Hset) as Hpos.
  destruct (fold_left add_child_semantics (child_slots n) ([], 0)) as [ml c].
  simpl in Hpos. apply Z.ltb_lt in Hpos. by rewrite Hpos.
Qed.

Lemma getAverageChildSemantics_none (n : SemanticOcTreeNode F) :
  (forall ch, Some ch ∈ child_slots n -> isSemanticsSet ch = false) ->
  getAverageChildSemantics n = Semantics_default.
Proof.
  intros Hnone. unfold getAverageChildSemantics. by rewrite fold_semantics_none.
Qed.

Lemma getAverageChildColor_none (n : SemanticOcTreeNode F) :
  (forall ch, Some ch ∈ child_slots n -> isColorSet ch = false) ->
  getAverageChildColor n = default_color.
Proof.
  intros Hnone. unfold getAverageChildColor. by rewrite fold_color_none.
Qed.

(** C9.  [updateSemanticsChildren] replaces the semantics of the node
    whatever its count was: afterwards the count is 1 when some child has
    semantics and 0 when none has. *)
Theorem updateSemanticsChildren_count (n : SemanticOcTreeNode F) :
  ((exists ch, Some ch ∈ child_slots n /\ isSemanticsSet ch = true) ->
   count (semantics (updateSemanticsChildren n)) = 1)
  /\ ((forall ch, Some ch ∈ child_slots n -> isSemanticsSet ch = false) ->
      count (semantics (updateSemanticsChildren n)) = 0).
Proof.
  split.
  - intros (ch & Hin & Hset). simpl. by eapply getAverageChildSemantics_some.
  - intros Hnone. simpl. by rewrite getAverageChildSemantics_none.
Qed.

End ChildAggregation.

Lemma updateSemanticsChildren_count_witness :
  count (semantics (updateSemanticsChildren
    (mkNode 0 default_color (mkSemantics [Binary32.ratio 1 1] 4000)
       (only_child (mkNode 0 default_color (mkSemantics [Binary32.ratio 1 1] 77) None)))))
  = 1
  /\ count (semantics (updateSemanticsChildren
       (mkNode 0 default_color (mkSemantics [Binary32.ratio 1 1] 4000)
          (only_child (Node_default (F:=Binary32.float32))))))
     = 0.
Proof.
  split.
  - apply updateSemanticsChildren_count.
    eexists. split; [apply list_elem_of_here|reflexivity].
  - apply updateSemanticsChildren_count.
    intros ch Hin. simpl in Hin.
    apply elem_of_cons in Hin as [Heq|Hin].
    + by injection Heq as ->.
    + repeat (apply elem_of_cons in Hin as [Heq|Hin]; [discriminate|]).
      by apply elem_of_nil in Hin.
Defined.

(** ** Induction on nodes *)

Section NodeInduction.

Context {F : Type}.
Variable P : SemanticOcTreeNode F -> Prop.

Hypothesis step : forall v c s cs, children_all P cs -> P (mkNode v c s cs).

Lemma Node_induction : forall n : SemanticOcTreeNode F, P n.
Proof.
  fix IH 1. intros [v c s cs]. apply step.
  destruct cs as [[a0 a1 a2 a3 a4 a5 a6 a7]|]; simpl; [|exact I].
  repeat split;
    match goal with
    | |- slot_all _ ?o => destruct o as [ch|]; simpl; [apply IH|exact I]
    end.
Qed.

End NodeInduction.

Lemma slot_all_impl {F} (P Q : SemanticOcTreeNode F -> Prop) slot :
  (forall n, P n -> Q n) -> slot_all P slot -> slot_all Q slot.
Proof. intros HPQ. destruct slot; simpl; auto. Qed.

Lemma children_all_impl {F} (P Q : SemanticOcTreeNode F -> Prop) cs :
  (forall n, P n -> Q n) -> children_all P cs -> children_all Q cs.
Proof.
  intros HPQ. destruct cs as [a|]; simpl; [|done].
  intros (H0 & H1 & H2 & H3 & H4 & H5 & H6 & H7).
  repeat split; eapply slot_all_impl; eauto.
Qed.

(** ** The aggregation pass *)

Section Pass.

Context {F : Type} `{FloatOps F}.
Variable aggregateOccupancy : Z -> list (option Z) -> Z.

Abbreviation pass := (updateInnerOccupancyRecurs aggregateOccupancy).

(** One unfolding of the pass. *)
Lemma pass_leaf (t : SemanticOcTree F) node depth :
  nodeHasChildren node = false ->
  pass t node depth = updateColorChildren_map (label2color t) node.
Proof. intros Hleaf. destruct node. simpl in *. by rewrite Hleaf. Qed.

Lemma pass_inner (t : SemanticOcTree F) node depth :
  nodeHasChildren node = true ->
  pass t node depth
  = cs ← (if (depth <? tree_depth t)%nat
          then
            match children node with
            | Some a =>
                a' ← on_children (fun ch => pass t ch (S depth)) a; Some (Some a')
            | None => Some None
            end
          else Some (children node));
    update_inner aggregateOccupancy t (set_children node cs).
Proof. intros Hinner. destruct node. simpl in *. by rewrite Hinner. Qed.

Lemma update_inner_empty_map (t : SemanticOcTree F) node :
  size (label2color t) = 0%nat ->
  update_inner aggregateOccupancy t node
  = Some (updateColorChildren
            (updateSemanticsChildren (updateOccupancyChildren aggregateOccupancy node))).
Proof. intros Hempty. unfold update_inner. by rewrite decide_True. Qed.

Lemma on_child_total (rec : SemanticOcTreeNode F -> option (SemanticOcTreeNode F)) slot :
  slot_all (fun ch => is_Some (rec ch)) slot -> is_Some (on_child rec slot).
Proof.
  destruct slot as [ch|]; simpl; [|by eexists].
  intros [ch' ->]. by eexists.
Qed.

Lemma on_children_total (rec : SemanticOcTreeNode F -> option (SemanticOcTreeNode F)) a :
  children_all (fun ch => is_Some (rec ch)) (Some a) -> is_Some (on_children rec a).
Proof.
  simpl. intros (H0 & H1 & H2 & H3 & H4 & H5 & H6 & H7).
  apply on_child_total in H0 as [x0 E0], H1 as [x1 E1], H2 as [x2 E2], H3 as [x3 E3],
    H4 as [x4 E4], H5 as [x5 E5], H6 as [x6 E6], H7 as [x7 E7].
  unfold on_children. rewrite E0, E1, E2, E3, E4, E5, E6, E7. by eexists.
Qed.

(** With an empty label-colour map nothing can throw: the pass returns. *)
Lemma pass_total_empty_map (t : SemanticOcTree F) :
  size (label2color t) = 0%nat ->
  forall node depth, is_Some (pass t node depth).
Proof.
  intros Hempty node.
  induction node as [v c s cs IH] using Node_induction. intros depth.
  destruct (nodeHasChildren (mkNode v c s cs)) eqn:Hkind.
  - rewrite pass_inner by done. simpl.
    destruct (depth <? tree_depth t)%nat; simpl.
    + destruct cs as [a|]; simpl.
      * destruct (on_children_total (fun ch => pass t ch (S depth)) a) as [a' ->].
        { eapply children_all_impl; [|exact IH]. intros n Hn. apply Hn. }
        simpl. rewrite update_inner_empty_map by done. by eexists.
      * rewrite update_inner_empty_map by done. by eexists.
    + rewrite update_inner_empty_map by done. by eexists.
  - rewrite pass_leaf by done.
    unfold updateColorChildren_map, getAverageChildColor_map.
    rewrite decide_True by done. by eexists.
Qed.

(** The children an inner node has after the pass are the ones its colour
    and semantics were computed from. *)
Lemma pass_inner_empty_map (t : SemanticOcTree F) node depth :
  size (label2color t) = 0%nat -> nodeHasChildren node = true ->
  exists cs,
    pass t node depth
    = Some (updateColorChildren
              (updateSemanticsChildren
                 (updateOccupancyChildren aggregateOccupancy (set_children node cs)))).
Proof.
  intros Hempty Hinner.
  destruct (pass_total_empty_map t Hempty node depth) as [node' Hpass].
  rewrite pass_inner in Hpass by done. rewrite pass_inner by done.
  destruct (if (depth <? tree_depth t)%nat then _ else _) as [cs|]; [|done].
  exists cs. simpl. by apply update_inner_empty_map.
Qed.

(** C6.  Aggregation of an inner node with an empty label-colour map.  The
    pass returns; if none of the children the node then has carries a set
    colour, the node's colour is the white default, and if none of them
    carries set semantics, the node's semantics are the unset default
    (empty vector, count 0), whatever they were before.  The same holds of
    the two node-level steps [updateColorChildren] and
    [updateSemanticsChildren] on their own. *)
Theorem aggregate_without_contributions :
  (forall n : SemanticOcTreeNode F,
     (forall ch, Some ch ∈ child_slots n -> isColorSet ch = false) ->
     updateColorChildren n = setColor n default_color)
  /\ (forall n : SemanticOcTreeNode F,
        (forall ch, Some ch ∈ child_slots n -> isSemanticsSet ch = false) ->
        updateSemanticsChildren n = setSemantics n Semantics_default)
  /\ (forall (t : SemanticOcTree F) node depth,
        size (label2color t) = 0%nat -> nodeHasChildren node = true ->
        exists node',
          pass t node depth = Some node'
          /\ ((forall ch, Some ch ∈ child_slots node' -> isColorSet ch = false) ->
              color node' = default_color)
          /\ ((forall ch, Some ch ∈ child_slots node' -> isSemanticsSet ch = false) ->
              semantics node' = Semantics_default)).
Proof.
  split; [|split].
  - intros n Hnone. unfold updateColorChildren. by rewrite getAverageChildColor_none.
  - intros n Hnone. unfold updateSemanticsChildren.
    by rewrite getAverageChildSemantics_none.
  - intros t node depth Hempty Hinner.
    destruct (pass_inner_empty_map t node depth Hempty Hinner) as [cs Hpass].
    eexists. split; [exact Hpass|]. split.
    + intros Hnone. simpl. apply getAverageChildColor_none. exact Hnone.
    + intros Hnone. simpl. apply getAverageChildSemantics_none. exact Hnone.
Qed.

End Pass.

Section PassLeaf.

Context {F : Type} `{FloatOps F}.
Variable aggregateOccupancy : Z -> list (option Z) -> Z.

Abbreviation pass := (updateInnerOccupancyRecurs aggregateOccupancy).

(** C1, as the code has it.  One call of the aggregation pass on a leaf,
    with a non-empty label-colour map: a leaf with semantics takes the
    colour the map gives for the most probable class of its semantics
    (the map having an entry for that class); a leaf without semantics is
    reset to the white default, and the most probable class is never
    computed on the empty vector. *)
Theorem leaf_color_from_map (t : SemanticOcTree F) node depth :
  nodeHasChildren node = false ->
  size (label2color t) <> 0%nat ->
  (isSemanticsSet node = true ->
   forall cr cg cb,
     label2color t !! Z.of_nat (max_element (label (semantics node))) = Some (cr, cg, cb) ->
     pass t node depth = Some (setColor node (mkColor cr cg cb)))
  /\ (isSemanticsSet node = false ->
      pass t node depth = Some (setColor node default_color)).
Proof.
  intros Hleaf Hmap. rewrite pass_leaf by done.
  unfold updateColorChildren_map, getAverageChildColor_map, isSemanticsSet.
  rewrite decide_False by done. split.
  - intros Hset cr cg cb Hat. apply Nat.ltb_lt in Hset.
    rewrite decide_False by lia. by rewrite Hat.
  - intros Hunset. apply Nat.ltb_ge in Hunset.
    rewrite decide_True by lia. done.
Qed.

(** When the map has no entry for the most probable class, [at] throws. *)
Lemma leaf_color_missing_entry (t : SemanticOcTree F) node depth :
  nodeHasChildren node = false ->
  size (label2color t) <> 0%nat ->
  isSemanticsSet node = true ->
  label2color t !! Z.of_nat (max_element (label (semantics node))) = None ->
  pass t node depth = None.
Proof.
  intros Hleaf Hmap Hset Hat. rewrite pass_leaf by done.
  unfold updateColorChildren_map, getAverageChildColor_map, isSemanticsSet in *.
  apply Nat.ltb_lt in Hset.
  rewrite decide_False by done. rewrite decide_False by lia. by rewrite Hat.
Qed.

(** With an empty map a leaf goes through the averaging branch, which finds
    no child and returns the white default. *)
Lemma leaf_color_empty_map (t : SemanticOcTree F) node depth :
  nodeHasChildren node = false ->
  size (label2color t) = 0%nat ->
  pass t node depth = Some (setColor node default_color).
Proof.
  intros Hleaf Hmap. rewrite pass_leaf by done.
  unfold updateColorChildren_map, getAverageChildColor_map.
  rewrite decide_True by done. simpl. f_equal. f_equal.
  apply getAverageChildColor_none. intros ch Hin.
  unfold nodeHasChildren in Hleaf.
  assert (Hex : existsb (fun slot : option (SemanticOcTreeNode F) =>
                  match slot with Some _ => true | None => false end)
                  (child_slots node) = true); [|congruence].
  apply existsb_exists. exists (Some ch). split; [|done].
  by apply list_elem_of_In.
Qed.

End PassLeaf.

(** ** Concrete runs *)

Section Runs.

Import Binary32.

Lemma leaf_color_from_map_witness :
  updateInnerOccupancyRecurs keep_occupancy tree_with_map labelled_leaf 3
  = Some (setColor labelled_leaf (mkColor 0 200 0))
  /\ updateInnerOccupancyRecurs keep_occupancy tree_with_map coloured_leaf 3
     = Some (setColor coloured_leaf default_color).
Proof.
  destruct (leaf_color_from_map keep_occupancy tree_with_map labelled_leaf 3)
    as [Hset _]; [reflexivity|by vm_compute|].
  destruct (leaf_color_from_map keep_occupancy tree_with_map coloured_leaf 3)
    as [_ Hunset]; [reflexivity|by vm_compute|].
  split.
  - apply Hset; reflexivity.
  - apply Hunset; reflexivity.
Defined.

(** A leaf of colour (10,20,30) without semantics does not keep its colour
    through the pass: it comes out white with a label-colour map, and white
    without one. *)
Lemma leaf_color_not_kept :
  nodeHasChildren coloured_leaf = false
  /\ isSemanticsSet coloured_leaf = false
  /\ color coloured_leaf = mkColor 10 20 30
  /\ size (label2color tree_with_map) = 2%nat
  /\ color <$> updateInnerOccupancyRecurs keep_occupancy tree_with_map coloured_leaf 0
     = Some (mkColor 255 255 255)
  /\ color <$> updateInnerOccupancyRecurs keep_occupancy tree_with_map coloured_leaf 0
     <> Some (color coloured_leaf)
  /\ size (label2color tree_without_map) = 0%nat
  /\ color <$> updateInnerOccupancyRecurs keep_occupancy tree_without_map coloured_leaf 0
     = Some (mkColor 255 255 255)
  /\ color <$> updateInnerOccupancyRecurs keep_occupancy tree_without_map coloured_leaf 0
     <> Some (color coloured_leaf).
Proof. repeat split; vm_compute; first [reflexivity|discriminate]. Qed.

Lemma aggregate_without_contributions_witness :
  exists node',
    updateInnerOccupancyRecurs keep_occupancy tree_without_map
      (stale_parent Node_default) 0 = Some node'
    /\ color node' = default_color
    /\ semantics node' = Semantics_default.
Proof.
  destruct (proj2 (proj2 (aggregate_without_contributions keep_occupancy))
              tree_without_map (stale_parent Node_default) 0%nat)
    as (node' & Hpass & Hcolor & Hsem); [reflexivity|reflexivity|].
  exists node'. split; [exact Hpass|].
  assert (Hrun : updateInnerOccupancyRecurs keep_occupancy tree_without_map
                   (stale_parent Node_default) 0
                 = Some (mkNode 0 default_color Semantics_default
                           (only_child (setColor Node_default default_color))))
    by reflexivity.
  rewrite Hrun in Hpass. injection Hpass as <-.
  split; [apply Hcolor|apply Hsem]; intros ch Hin; simpl in Hin;
    (apply elem_of_cons in Hin as [Heq|Hin]; [by injection Heq as ->|]);
    repeat (apply elem_of_cons in Hin as [Heq|Hin]; [discriminate|]);
    by apply elem_of_nil in Hin.
Defined.

(** C2.  An inner node whose only child has the all-zero label vector
    [[0, 0]] (the vector [SemanticOcTreeNode(2)] starts with): the child
    counts as having semantics, the accumulated vector sums to 0, and the
    division by that sum in [getAverageChildSemantics] is unguarded, so the
    parent gets [[NaN, NaN]] with count 1, not the uniform [[0.5, 0.5]] that
    [normalize] gives for the same vector. *)
Theorem zero_sum_children_give_nan :
  let child := Node_of_num_class (F:=float32) 2 in
  let parent := mkNode 0 default_color Semantics_default (only_child child) in
  label (semantics child) = [zero; zero]
  /\ isSemanticsSet child = true
  /\ semantics (updateSemanticsChildren parent) = mkSemantics [nan; nan] 1
  /\ sum_labels (label (semantics (updateSemanticsChildren parent))) = nan
  /\ normalize [zero; zero] = [ratio 1 2; ratio 1 2].
Proof. repeat split; vm_compute; reflexivity. Qed.

End Runs.

(** * Further properties *)

(** ** Colour comparison *)

Section ColorOperators.

Context {F : Type} `{FloatOps F}.

Lemma color_eqb_eq (c d : Color) : color_eqb c d = true <-> c = d.
Proof.
  unfold color_eqb. destruct c as [cr cg cb], d as [dr dg db]. simpl.
  rewrite !andb_true_iff, !Z.eqb_eq. split.
  - by intros [[-> ->] ->].
  - intros Heq. by injection Heq as -> -> ->.
Qed.

(** X1.  [operator==] holds exactly of equal colours, [operator!=] is its
    negation, and [isColorSet] is [operator!=] against the default white. *)
Theorem Color_operators_exact :
  (forall c d : Color, color_eqb c d = true <-> c = d)
  /\ (forall c d : Color, color_neqb c d = negb (color_eqb c d))
  /\ (forall n : SemanticOcTreeNode F,
        isColorSet n = color_neqb (color n) default_color)
  /\ (forall n : SemanticOcTreeNode F,
        isColorSet n = false <-> color n = default_color).
Proof.
  split; [apply color_eqb_eq|]. split; [|split].
  - intros c d. unfold color_neqb, color_eqb. by rewrite !negb_andb.
  - done.
  - intros n. rewrite <- color_eqb_eq. unfold isColorSet, color_eqb. simpl.
    rewrite !orb_false_iff, !negb_false_iff, !andb_true_iff. tauto.
Qed.

End ColorOperators.

(** ** The two scans for the most probable class *)

Section ScanBounds.

Context {F : Type} `{FloatOps F}.

Lemma max_element_from_bound (l : list F) : forall best bestv i,
  (best < i)%nat -> (max_element_from best bestv i l < i + length l)%nat.
Proof.
  induction l as [|x l IH]; intros best bestv i Hi; simpl; [lia|].
  destruct (flt bestv x).
  - specialize (IH i x (S i)). lia.
  - specialize (IH best bestv (S i)). lia.
Qed.

(** X2.  The position [std::max_element] reports lies inside a non-empty
    vector whatever its entries are (NaN included), so the class looked up
    in the label-colour map is one of the vector's classes; on the empty
    vector the scan reports 0. *)
Theorem max_element_in_bounds (l : list F) :
  (l <> [] -> (max_element l < length l)%nat)
  /\ (l = [] -> max_element l = 0%nat).
Proof.
  split.
  - destruct l as [|x l]; [done|]. intros _. simpl.
    pose proof (max_element_from_bound l 0 x 1). lia.
  - by intros ->.
Qed.

End ScanBounds.

Lemma max_element_in_bounds_witness :
  (max_element [Binary32.nan; Binary32.ratio 1 2; Binary32.nan] < 3)%nat.
Proof.
  apply (proj1 (max_element_in_bounds
                  [Binary32.nan; Binary32.ratio 1 2; Binary32.nan])).
  discriminate.
Defined.

Section ScanAgreement.

Import Binary32 Binary32Order.

(** X3.  On a vector of non-negative entries the label that
    [getSemanticLabel] returns is the class that
    [getAverageChildColor(label2color)] looks up in the map. *)
Theorem getSemanticLabel_is_max_element (n : SemanticOcTreeNode float32) :
  Forall nonneg (label (semantics n)) ->
  getSemanticLabel n = Z.of_nat (max_element (label (semantics n))).
Proof.
  intros Hnn. destruct (decide (label (semantics n) = [])) as [Hnil|Hne].
  - unfold getSemanticLabel. by rewrite Hnil.
  - destruct (getSemanticLabel_loop_nonneg _ Hne Hnn) as (idx & Hidx & Hmax).
    unfold getSemanticLabel. rewrite Hidx. f_equal.
    eapply first_max_unique; [exact Hmax|].
    apply max_element_spec; [done|].
    eapply Forall_impl; [exact Hnn|]. apply nonneg_not_nan.
Qed.

Lemma getSemanticLabel_is_max_element_witness :
  getSemanticLabel (node_with_label [ratio 1 5; ratio 3 5; ratio 1 5])
  = Z.of_nat (max_element [ratio 1 5; ratio 3 5; ratio 1 5]).
Proof.
  apply (getSemanticLabel_is_max_element
           (node_with_label [ratio 1 5; ratio 3 5; ratio 1 5])).
  repeat constructor.
Defined.

End ScanAgreement.

(** ** Normalisation at the edges *)

Section NormalizeEdges.

Import Binary32 Binary32Order.

Lemma add_nan_l (x : float32) : add nan x = nan.
Proof. by destruct x. Qed.

Lemma add_nan_r (x : float32) : add x nan = nan.
Proof. by destruct x as [[]|[]| |[] ? ?]. Qed.

Lemma fold_add_nan (l : list float32) : fold_left add l nan = nan.
Proof.
  induction l as [|x l IH]; cbn [fold_left]; [done|]. by rewrite add_nan_l.
Qed.

Lemma sum_with_nan (l : list float32) : forall acc,
  Exists (fun x => is_nan x = true) l -> fold_left add l acc = nan.
Proof.
  induction l as [|x l IH]; intros acc Hex; [by apply Exists_nil in Hex|].
  apply Exists_cons in Hex as [Hx|Hex]; cbn [fold_left].
  - destruct x; try discriminate. change S754_nan with nan.
    rewrite add_nan_r. apply fold_add_nan.
  - by apply IH.
Qed.

(** X4.  A label vector with a NaN entry has a NaN sum, which is not
    greater than 0: [normalizeSemantics] then takes the fallback branch and
    replaces every entry, the valid ones too, by [1 / length]. *)
Theorem normalize_nan_gives_uniform (l : list float32) :
  Exists (fun x => is_nan x = true) l ->
  sum_labels l = nan
  /\ normalize l = replicate (length l) (one_over_size (length l)).
Proof.
  intros Hex.
  assert (Hsum : sum_labels l = nan) by (by apply sum_with_nan).
  split; [done|].
  assert (Hneg : flt fzero (sum_labels l) = false) by (by rewrite Hsum).
  exact (normalize_not_positive (F:=float32) l Hneg).
Qed.

Lemma normalize_nan_gives_uniform_witness :
  normalize [ratio 1 4; nan; ratio 3 4; ratio 1 1]
  = replicate 4 (ratio 1 4).
Proof.
  destruct (normalize_nan_gives_uniform [ratio 1 4; nan; ratio 3 4; ratio 1 1])
    as [_ Hnorm].
  - apply Exists_cons_tl, Exists_cons_hd. reflexivity.
  - rewrite Hnorm. reflexivity.
Defined.

Lemma sum_zeros (k : nat) : sum_labels (replicate k zero) = zero.
Proof.
  unfold sum_labels. simpl.
  induction k as [|k IH]; simpl; [done|exact IH].
Qed.

(** X5.  The all-zero vector that [SemanticOcTreeNode(num_class)] starts
    with is normalised to the uniform vector of [Semantics(num_class)]: every
    entry is [1.0 / num_class], and the count is left at 0. *)
Theorem normalize_fresh_node_is_uniform (num_class : nat) :
  semantics (normalizeSemantics (Node_of_num_class (F:=float32) num_class))
  = mkSemantics (label (Semantics_uniform (F:=float32) num_class)) 0.
Proof.
  unfold normalizeSemantics, Node_of_num_class, Semantics_uniform. simpl.
  f_equal. rewrite (normalize_not_positive (F:=float32)).
  - by rewrite length_replicate.
  - change (ltb zero (sum_labels (replicate num_class zero)) = false).
    by rewrite sum_zeros.
Qed.

End NormalizeEdges.

(** ** Fusion at the edges *)

Section FusionEdges.

Context {F : Type} `{FloatOps F}.

(** X6.  After [averageNodeSemantics] the label vector is as long as the
    longer of the node's vector and the observed one: fusion never drops a
    class, and a node has semantics afterwards exactly when it had some or
    the observation is not empty. *)
Theorem averageNodeSemantics_length (n : SemanticOcTreeNode F) (obs : list F) :
  exists n',
    averageNodeSemantics (Some n) obs = Some n'
    /\ length (label (semantics n'))
       = Nat.max (length (label (semantics n))) (length obs)
    /\ isSemanticsSet n' = isSemanticsSet n || (0 <? length obs)%nat.
Proof.
  destruct (isSemanticsSet n) eqn:Hset.
  - rewrite averageNodeSemantics_set by done. eexists. split; [done|].
    unfold isSemanticsSet in *. simpl.
    rewrite normalize_length, fused_label_length. split; [done|].
    apply Nat.ltb_lt in Hset. apply Nat.ltb_lt. lia.
  - rewrite averageNodeSemantics_unset by done. eexists. split; [done|].
    unfold isSemanticsSet in *. simpl. rewrite normalize_length.
    apply Nat.ltb_ge in Hset. split; [lia|done].
Qed.

(** X7.  An empty observed vector is not ignored.  On a node without
    semantics it leaves the vector empty, so the node still counts as unset,
    but sets the count to 1; on a node with semantics it renormalises the
    vector as it is and advances the count. *)
Theorem averageNodeSemantics_empty_observation (n : SemanticOcTreeNode F) :
  (isSemanticsSet n = false ->
   averageNodeSemantics (Some n) [] = Some (setSemantics n (mkSemantics [] 1))
   /\ isSemanticsSet (setSemantics n (mkSemantics [] 1)) = false)
  /\ (isSemanticsSet n = true ->
      averageNodeSemantics (Some n) []
      = Some (setSemantics n (mkSemantics (normalize (label (semantics n)))
                                          (u32 (count (semantics n) + 1))))).
Proof.
  split; intros Hset.
  - rewrite averageNodeSemantics_unset by done. by rewrite normalize_nil.
  - rewrite averageNodeSemantics_set by done. do 4 f_equal.
    unfold fused_label. simpl.
    by destruct (label (semantics n)).
Qed.

(** X8.  Colour fusion and semantics fusion do not interfere: either order
    gives the same node, and a null pointer is left alone by both. *)
Theorem averageNodeColor_averageNodeSemantics_commute
    (n : option (SemanticOcTreeNode F)) (r' g' b' : Z) (obs : list F) :
  averageNodeSemantics (averageNodeColor n r' g' b') obs
  = averageNodeColor (averageNodeSemantics n obs) r' g' b'.
Proof.
  destruct n as [n|]; [|done].
  unfold averageNodeColor, averageNodeSemantics.
  destruct (isColorSet n) eqn:Hc, (isSemanticsSet n) eqn:Hs; simpl;
    unfold isSemanticsSet, isColorSet in *; simpl; rewrite ?Hc, ?Hs; done.
Qed.

(** X9.  What [averageNodeColor] keeps: channels stay within [0, 255] and
    each lies between the old and the observed value; a node whose colour is
    set still has a set colour afterwards, so blending never produces the
    white sentinel from a colour; and blending in the white sentinel does
    not mark an unset node as set. *)
Theorem averageNodeColor_invariants (n : SemanticOcTreeNode F) (r' g' b' : Z) :
  wf_color (color n) -> u8_range r' -> u8_range g' -> u8_range b' ->
  exists n',
    averageNodeColor (Some n) r' g' b' = Some n'
    /\ wf_color (color n')
    /\ (isColorSet n = true ->
        isColorSet n' = true
        /\ Z.min (r (color n)) r' <= r (color n') <= Z.max (r (color n)) r'
        /\ Z.min (g (color n)) g' <= g (color n') <= Z.max (g (color n)) g'
        /\ Z.min (b (color n)) b' <= b (color n') <= Z.max (b (color n)) b')
    /\ (isColorSet n = false -> r' = 255 -> g' = 255 -> b' = 255 ->
        isColorSet n' = false).
Proof.
  intros (Hr & Hg & Hb) Hr' Hg' Hb'. unfold u8_range in *.
  unfold averageNodeColor, setColor_rgb, getColor.
  destruct (isColorSet n) eqn:Hset.
  - eexists. split; [done|]. simpl.
    rewrite !u8_mean by done. rewrite !Z.quot_div_nonneg by lia.
    unfold wf_color, u8_range, isColorSet in *. simpl.
    apply orb_true_iff in Hset as [Hset|Hset];
      [apply orb_true_iff in Hset as [Hset|Hset]|];
      apply negb_true_iff, Z.eqb_neq in Hset;
      (split; [|split; [|done]]);
      rewrite ?orb_true_iff, ?negb_true_iff, ?Z.eqb_neq;
      Z.div_mod_to_equations; lia.
  - eexists. split; [done|]. simpl. rewrite !u8_small by done.
    split; [done|]. split; [done|].
    intros _ -> -> ->. done.
Qed.

End FusionEdges.

Lemma averageNodeColor_invariants_witness :
  exists n',
    averageNodeColor
      (Some (mkNode 0 (mkColor 255 255 254) (mkSemantics [Binary32.zero] 1) None))
      255 255 255 = Some n'
    /\ wf_color (color n') /\ isColorSet n' = true.
Proof.
  destruct (averageNodeColor_invariants
              (mkNode 0 (mkColor 255 255 254) (mkSemantics [Binary32.zero] 1) None)
              255 255 255) as (n' & Heq & Hwf & Hset & _);
    [repeat split; done|done|done|done|].
  exists n'. split; [exact Heq|]. split; [exact Hwf|].
  apply Hset. reflexivity.
Defined.

(** ** The averages over the children *)

Section ChildAverages.

Context {F : Type} `{FloatOps F}.

Lemma fold_color_sums (slots : list (option (SemanticOcTreeNode F))) :
  forall mr mg mb c,
    fold_left add_child_color slots (mr, mg, mb, c)
    = (mr + sum_channel r (omap slot_color slots),
       mg + sum_channel g (omap slot_color slots),
       mb + sum_channel b (omap slot_color slots),
       c + Z.of_nat (length (omap slot_color slots))).
Proof.
  induction slots as [|slot slots IH]; intros mr mg mb c; simpl.
  - f_equal; [f_equal; [f_equal|]|]; lia.
  - destruct slot as [ch|]; simpl; [destruct (isColorSet ch); simpl|];
      rewrite IH; unfold getColor; rewrite ?Zpos_P_of_succ_nat;
      change (list_omap _ _ slot_color slots) with (omap slot_color slots);
      try reflexivity; (f_equal; [f_equal; [f_equal|]|]); lia.
Qed.

Lemma sum_channel_bounds (f : Color -> Z) (cs : list Color) :
  Forall (fun c => u8_range (f c)) cs ->
  0 <= sum_channel f cs <= 255 * Z.of_nat (length cs).
Proof.
  induction 1 as [|c cs Hc _ IH]; simpl; [lia|]. unfold u8_range in Hc. lia.
Qed.

Lemma sum_channel_constant (f : Color -> Z) (c0 : Color) (cs : list Color) :
  Forall (fun c => c = c0) cs ->
  sum_channel f cs = f c0 * Z.of_nat (length cs).
Proof. induction 1 as [|c cs -> _ IH]; simpl; lia. Qed.

Lemma set_child_colors_elem (n : SemanticOcTreeNode F) (c : Color) :
  c ∈ set_child_colors n ->
  exists ch, Some ch ∈ child_slots n /\ isColorSet ch = true /\ color ch = c.
Proof.
  unfold set_child_colors. intros Hin.
  apply list_elem_of_omap in Hin as (slot & Hslot & Hc).
  destruct slot as [ch|]; [|done]. simpl in Hc.
  destruct (isColorSet ch) eqn:Hset; [|done].
  injection Hc as <-. by exists ch.
Qed.

(** X10.  [getAverageChildColor()] is the truncated channel-wise mean over
    exactly the existing children whose colour is set; absent and unset
    children do not count.  With at least one such child the mean fits the
    channels, is itself a set colour (never the white sentinel), and is
    that colour when all contributing children share one. *)
Theorem getAverageChildColor_mean (n : SemanticOcTreeNode F) :
  (forall ch, Some ch ∈ child_slots n -> wf_color (color ch)) ->
  set_child_colors n <> [] ->
  let cs := set_child_colors n in
  let k := Z.of_nat (length cs) in
  getAverageChildColor n
  = mkColor (sum_channel r cs / k) (sum_channel g cs / k) (sum_channel b cs / k)
  /\ wf_color (getAverageChildColor n)
  /\ color_neqb (getAverageChildColor n) default_color = true
  /\ (forall c0, Forall (fun c => c = c0) cs -> getAverageChildColor n = c0).
Proof.
  intros Hwf Hne cs k.
  assert (Hk : 0 < k) by (subst k cs; destruct (set_child_colors n); [done|simpl; lia]).
  assert (Hall : forall f, (forall c, wf_color c -> u8_range (f c)) ->
                           Forall (fun c => u8_range (f c)) cs).
  { intros f Hf. apply Forall_forall. intros c Hc.
    apply set_child_colors_elem in Hc as (ch & Hin & _ & <-). apply Hf. by apply Hwf. }
  pose proof (sum_channel_bounds r cs (Hall r (fun c Hc => proj1 Hc))) as Br.
  pose proof (sum_channel_bounds g cs (Hall g (fun c Hc => proj1 (proj2 Hc)))) as Bg.
  pose proof (sum_channel_bounds b cs (Hall b (fun c Hc => proj2 (proj2 Hc)))) as Bb.
  fold k in Br, Bg, Bb.
  assert (Heq : getAverageChildColor n
                = mkColor (sum_channel r cs / k) (sum_channel g cs / k)
                          (sum_channel b cs / k)).
  { unfold getAverageChildColor. rewrite fold_color_sums.
    fold (set_child_colors n). fold cs. fold k. rewrite !Z.add_0_l.
    destruct (Z.ltb_spec 0 k); [|lia].
    rewrite !Z.quot_div_nonneg by lia. unfold u8.
    rewrite !Z.mod_small; [done| | |];
      (split; [apply Z.div_pos; lia|apply Z.div_lt_upper_bound; lia]). }
  split; [exact Heq|]. rewrite Heq. split; [|split].
  - unfold wf_color, u8_range. simpl.
    repeat split; first [apply Z.div_pos; lia|apply Z.div_lt_upper_bound; lia].
  - (* the first contributing child has a channel below 255 *)
    destruct cs as [|c1 cs'] eqn:Hcs; [done|].
    assert (Hc1 : c1 ∈ set_child_colors n) by (fold cs; rewrite Hcs; by left).
    apply set_child_colors_elem in Hc1 as (ch & Hin & Hset & <-).
    specialize (Hwf ch Hin). destruct Hwf as (Wr & Wg & Wb).
    assert (Hrest : forall f, (forall c, wf_color c -> u8_range (f c)) ->
                      0 <= sum_channel f cs' <= 255 * Z.of_nat (length cs')).
    { intros f Hf. apply sum_channel_bounds.
      specialize (Hall f Hf). by inversion Hall. }
    pose proof (Hrest r (fun c Hc => proj1 Hc)).
    pose proof (Hrest g (fun c Hc => proj1 (proj2 Hc))).
    pose proof (Hrest b (fun c Hc => proj2 (proj2 Hc))).
    unfold color_neqb, isColorSet, u8_range in *. simpl in *.
    assert (k = 1 + Z.of_nat (length cs')) as Ek by (subst k; simpl; lia).
    apply orb_true_iff in Hset as [Hset|Hset];
      [apply orb_true_iff in Hset as [Hset|Hset]|];
      apply negb_true_iff, Z.eqb_neq in Hset;
      rewrite !orb_true_iff, !negb_true_iff, !Z.eqb_neq.
    + left. left. intros E.
      assert (sum_channel r cs' + r (color ch) < 255 * k) by lia.
      assert ((r (color ch) + sum_channel r cs') / k < 255)
        by (apply Z.div_lt_upper_bound; lia). lia.
    + left. right. intros E.
      assert ((g (color ch) + sum_channel g cs') / k < 255)
        by (apply Z.div_lt_upper_bound; lia). lia.
    + right. intros E.
      assert ((b (color ch) + sum_channel b cs') / k < 255)
        by (apply Z.div_lt_upper_bound; lia). lia.
  - intros c0 Hsame. rewrite !(sum_channel_constant _ c0) by done. fold k.
    rewrite !Z.div_mul by lia. by destruct c0.
Qed.

Lemma add_into_length (clabel : list F) : forall mlabel,
  (length clabel <= length mlabel)%nat ->
  length (add_into mlabel clabel) = length mlabel.
Proof.
  induction clabel as [|x clabel IH]; intros [|m mlabel] Hlen; simpl in *;
    try done; try lia.
  rewrite IH; [done|lia].
Qed.

Lemma fold_semantics_length (slots : list (option (SemanticOcTreeNode F))) :
  forall mlabel c,
    length (fst (fold_left add_child_semantics slots (mlabel, c)))
    = Nat.max (length mlabel) (max_length (omap slot_label slots)).
Proof.
  induction slots as [|slot slots IH]; intros mlabel c; simpl; [lia|].
  destruct slot as [ch|]; simpl; [|apply IH].
  destruct (isSemanticsSet ch); simpl; [|apply IH].
  rewrite IH. unfold getSemantics.
  change (list_omap _ _ slot_label slots) with (omap slot_label slots).
  destruct (Nat.ltb_spec (length mlabel) (length (label (semantics ch)))).
  - rewrite add_into_length; rewrite resize_length; lia.
  - rewrite add_into_length; lia.
Qed.

Lemma set_child_labels_nonempty (n : SemanticOcTreeNode F) :
  set_child_labels n <> []
  <-> exists ch, Some ch ∈ child_slots n /\ isSemanticsSet ch = true.
Proof.
  unfold set_child_labels. split.
  - intros Hne. destruct (omap slot_label (child_slots n)) as [|l ls] eqn:E; [done|].
    assert (Hl : l ∈ omap slot_label (child_slots n)) by (rewrite E; by left).
    apply list_elem_of_omap in Hl as (slot & Hslot & Hl).
    destruct slot as [ch|]; [|done]. simpl in Hl.
    destruct (isSemanticsSet ch) eqn:Hset; [|done]. by exists ch.
  - intros (ch & Hin & Hset) Hnil.
    assert (Hl : label (semantics ch) ∈ omap slot_label (child_slots n)).
    { apply list_elem_of_omap. exists (Some ch). split; [done|]. simpl. by rewrite Hset. }
    rewrite Hnil in Hl. by apply elem_of_nil in Hl.
Qed.

Lemma max_length_pos (ls : list (list F)) :
  Exists (fun l => (0 < length l)%nat) ls -> (0 < max_length ls)%nat.
Proof. induction 1 as [l ls Hl|l ls _ IH]; simpl; lia. Qed.

Lemma getAverageChildSemantics_label_length (n : SemanticOcTreeNode F) :
  length (label (getAverageChildSemantics n)) = max_length (set_child_labels n).
Proof.
  destruct (decide (set_child_labels n = [])) as [Hnil|Hne].
  - rewrite getAverageChildSemantics_none; [by rewrite Hnil|].
    intros ch Hin. destruct (isSemanticsSet ch) eqn:Hset; [|done].
    exfalso. apply (proj2 (set_child_labels_nonempty n)); [by exists ch|done].
  - apply set_child_labels_nonempty in Hne as (ch & Hin & Hset).
    pose proof (fold_semantics_count_pos (child_slots n) [] 0 ch Hin Hset) as Hpos.
    pose proof (fold_semantics_length (child_slots n) [] 0) as Hfold.
    unfold getAverageChildSemantics.
    destruct (fold_left add_child_semantics (child_slots n) ([], 0)) as [ml c].
    simpl in *. apply Z.ltb_lt in Hpos. rewrite Hpos. simpl.
    rewrite !length_map. exact Hfold.
Qed.

(** X11.  The vector [getAverageChildSemantics] returns is as long as the
    longest label vector among the children that have semantics, shorter
    ones being padded; so after [updateSemanticsChildren] a node has
    semantics exactly when one of its children has. *)
Theorem getAverageChildSemantics_length (n : SemanticOcTreeNode F) :
  length (label (getAverageChildSemantics n)) = max_length (set_child_labels n)
  /\ (isSemanticsSet (updateSemanticsChildren n) = true
      <-> exists ch, Some ch ∈ child_slots n /\ isSemanticsSet ch = true).
Proof.
  pose proof (getAverageChildSemantics_label_length n) as Hlen.
  split; [exact Hlen|].
  unfold isSemanticsSet at 1. simpl. rewrite Hlen, Nat.ltb_lt.
  rewrite <- set_child_labels_nonempty. split.
  - intros Hpos Hnil. rewrite Hnil in Hpos. simpl in Hpos. lia.
  - intros Hne. apply max_length_pos.
    destruct (set_child_labels n) as [|l ls] eqn:E; [done|].
    apply Exists_cons_hd.
    assert (Hl : l ∈ set_child_labels n) by (rewrite E; by left).
    unfold set_child_labels in Hl.
    apply list_elem_of_omap in Hl as (slot & _ & Hl).
    destruct slot as [ch|]; [|done]. simpl in Hl.
    destruct (isSemanticsSet ch) eqn:Hset; [|done].
    injection Hl as <-. unfold isSemanticsSet in Hset. by apply Nat.ltb_lt in Hset.
Qed.

End ChildAverages.

Lemma getAverageChildColor_mean_witness :
  getAverageChildColor
    (mkNode 0 default_color (Semantics_default (F:=Binary32.float32))
       (Some (mk8 (Some (mkNode 0 (mkColor 10 20 30) Semantics_default None))
                  None
                  (Some Node_default)
                  (Some (mkNode 0 (mkColor 21 20 21) Semantics_default None))
                  None None None None)))
  = mkColor 15 20 25.
Proof.
  match goal with |- getAverageChildColor ?n = _ =>
    destruct (getAverageChildColor_mean n) as (Heq & _)
  end.
  - intros ch Hin. simpl in Hin.
    repeat (apply elem_of_cons in Hin as [Heq|Hin];
            [first [discriminate|injection Heq as ->; repeat split; done]|]).
    by apply elem_of_nil in Hin.
  - discriminate.
  - rewrite Heq. reflexivity.
Defined.

(** ** The byte stream *)

Section FileIOEdges.

Context {F : Type} `{FloatOps F}.

Lemma value_of_bytes_roundtrip (b0 b1 b2 b3 : Z) :
  u8_range b0 -> u8_range b1 -> u8_range b2 -> u8_range b3 ->
  value_bytes (value_of_bytes b0 b1 b2 b3) = [b0; b1; b2; b3]
  /\ u32_range (value_of_bytes b0 b1 b2 b3).
Proof.
  unfold u8_range, u32_range, value_bytes, value_of_bytes. intros H0 H1 H2 H3.
  split; [|lia].
  repeat f_equal; Z.div_mod_to_equations; lia.
Qed.

Lemma readData_after_writeData (n m : SemanticOcTreeNode F) (rest : list Z) :
  u32_range (value n) ->
  readData m (writeData n [] ++ rest)
  = Some (mkNode (value n) (color n) (semantics m) (children m), rest).
Proof.
  intros Hv. unfold writeData. simpl.
  rewrite value_bytes_roundtrip by done. by destruct (color n).
Qed.

(** X12.  [readData] fails exactly on a stream of fewer than seven bytes.
    When it succeeds it consumes seven bytes and changes the occupancy value
    and the colour only: the semantics and the children of the node read into
    are kept. *)
Theorem readData_needs_seven_bytes (m : SemanticOcTreeNode F) (s : list Z) :
  (readData m s = None <-> (length s < 7)%nat)
  /\ (forall m' rest,
        readData m s = Some (m', rest) ->
        length s = (7 + length rest)%nat
        /\ rest = drop 7 s
        /\ semantics m' = semantics m
        /\ children m' = children m).
Proof.
  destruct s as [|b0 [|b1 [|b2 [|b3 [|cr [|cg [|cb s]]]]]]]; simpl;
    (split; [split; [first [done|lia]|first [done|lia]]|]);
    intros m' rest Heq; try discriminate.
  injection Heq as <- <-. done.
Qed.

(** X13.  Reading a node from a stream of bytes and writing it again gives
    back the seven bytes that were read: no byte pattern is altered by the
    pair, and the value read fits 32 bits. *)
Theorem readData_writeData_roundtrip (m m' : SemanticOcTreeNode F) (s rest : list Z) :
  Forall u8_range (take 7 s) ->
  readData m s = Some (m', rest) ->
  writeData m' [] ++ rest = s
  /\ u32_range (value m') /\ wf_color (color m').
Proof.
  intros Hbytes Hread.
  destruct s as [|b0 [|b1 [|b2 [|b3 [|cr [|cg [|cb s]]]]]]]; try discriminate.
  simpl in Hread. injection Hread as <- <-. simpl in Hbytes.
  repeat match goal with
         | Hb : Forall _ (_ :: _) |- _ => apply Forall_cons in Hb as [? Hb]
         end.
  destruct (value_of_bytes_roundtrip b0 b1 b2 b3) as [Hvb Hrange]; try done.
  unfold writeData. cbn [value color r g b]. rewrite app_nil_l, Hvb. done.
Qed.

(** X14.  Nodes written one after the other are read back one after the
    other: after the first read the stream holds exactly the bytes of the
    second node, and the second read leaves it empty. *)
Theorem writeData_sequence_read_back
    (n1 n2 m1 m2 : SemanticOcTreeNode F) :
  u32_range (value n1) -> u32_range (value n2) ->
  exists s1,
    readData m1 (writeData n2 (writeData n1 []))
    = Some (mkNode (value n1) (color n1) (semantics m1) (children m1), s1)
    /\ s1 = writeData n2 []
    /\ readData m2 s1
       = Some (mkNode (value n2) (color n2) (semantics m2) (children m2), []).
Proof.
  intros Hv1 Hv2. exists (writeData n2 []).
  assert (Happ : writeData n2 (writeData n1 []) = writeData n1 [] ++ writeData n2 []).
  { unfold writeData. rewrite !app_nil_l. by rewrite <- !app_assoc. }
  rewrite Happ, readData_after_writeData by done. split; [done|]. split; [done|].
  rewrite <- (app_nil_r (writeData n2 [])). by apply readData_after_writeData.
Qed.

End FileIOEdges.

Lemma readData_writeData_roundtrip_witness :
  writeData (mkNode 1065353216 (mkColor 10 20 30)
               (Semantics_default (F:=Binary32.float32)) None) [] ++ [9; 9]
  = [0; 0; 128; 63; 10; 20; 30; 9; 9].
Proof.
  destruct (readData_writeData_roundtrip (F:=Binary32.float32) Node_default
              (mkNode 1065353216 (mkColor 10 20 30) Semantics_default None)
              [0; 0; 128; 63; 10; 20; 30; 9; 9] [9; 9]) as [Hw _].
  - simpl. unfold u8_range. repeat (apply Forall_cons; split; [lia|]).
    apply Forall_nil_2.
  - reflexivity.
  - exact Hw.
Defined.

Lemma writeData_sequence_read_back_witness :
  exists s1,
    readData (Node_default (F:=Binary32.float32))
      (writeData (mkNode 7 (mkColor 4 5 6) (Semantics_default (F:=Binary32.float32)) None)
         (writeData (mkNode 1065353216 (mkColor 1 2 3)
                       (Semantics_default (F:=Binary32.float32)) None) []))
    = Some (mkNode 1065353216 (mkColor 1 2 3) Semantics_default None, s1)
    /\ s1 = [7; 0; 0; 0; 4; 5; 6].
Proof.
  destruct (writeData_sequence_read_back
              (mkNode 1065353216 (mkColor 1 2 3)
                 (Semantics_default (F:=Binary32.float32)) None)
              (mkNode 7 (mkColor 4 5 6) Semantics_default None)
              Node_default Node_default) as (s1 & Hr1 & Hs1 & _).
  - unfold u32_range. simpl. lia.
  - unfold u32_range. simpl. lia.
  - exists s1. split; [exact Hr1|]. rewrite Hs1. reflexivity.
Defined.

(** ** The structure of the aggregation pass *)

Section SlotRelations.

Context {F : Type} `{FloatOps F}.

Lemma slot_rel_impl (R R' : SemanticOcTreeNode F -> SemanticOcTreeNode F -> Prop) o o' :
  (forall ch ch', R ch ch' -> R' ch ch') -> slot_rel R o o' -> slot_rel R' o o'.
Proof. intros HR. destruct o, o'; simpl; auto. Qed.

Lemma slots_rel_impl (R R' : SemanticOcTreeNode F -> SemanticOcTreeNode F -> Prop) l l' :
  (forall ch ch', R ch ch' -> R' ch ch') ->
  Forall2 (slot_rel R) l l' -> Forall2 (slot_rel R') l l'.
Proof.
  intros HR Hall. eapply Forall2_impl; [exact Hall|].
  intros o o'. by apply slot_rel_impl.
Qed.

Lemma slots_rel_with (P : SemanticOcTreeNode F -> Prop)
    (R : SemanticOcTreeNode F -> SemanticOcTreeNode F -> Prop) l l' :
  Forall (slot_all P) l -> Forall2 (slot_rel R) l l' ->
  Forall2 (slot_rel (fun ch ch' => P ch /\ R ch ch')) l l'.
Proof.
  intros HP HR. induction HR as [|o o' l l' Ho _ IH]; [constructor|].
  apply Forall_cons in HP as [Hp HP]. constructor; [|by apply IH].
  destruct o, o'; simpl in *; auto.
Qed.

Lemma slots_rel_elem_r (R : SemanticOcTreeNode F -> SemanticOcTreeNode F -> Prop) l l' ch' :
  Forall2 (slot_rel R) l l' -> Some ch' ∈ l' -> exists ch, Some ch ∈ l /\ R ch ch'.
Proof.
  intros HR Hin. induction HR as [|o o' l l' Ho _ IH]; [by apply elem_of_nil in Hin|].
  apply elem_of_cons in Hin as [<-|Hin].
  - destruct o as [ch|]; [|done]. exists ch. split; [by left|done].
  - destruct (IH Hin) as (ch & Hch & HRch). exists ch. split; [by right|done].
Qed.

Lemma slots_rel_elem_l (R : SemanticOcTreeNode F -> SemanticOcTreeNode F -> Prop) l l' ch :
  Forall2 (slot_rel R) l l' -> Some ch ∈ l -> exists ch', Some ch' ∈ l' /\ R ch ch'.
Proof.
  intros HR Hin. induction HR as [|o o' l l' Ho _ IH]; [by apply elem_of_nil in Hin|].
  apply elem_of_cons in Hin as [<-|Hin].
  - destruct o' as [ch'|]; [|done]. exists ch'. split; [by left|done].
  - destruct (IH Hin) as (ch' & Hch & HRch). exists ch'. split; [by right|done].
Qed.

Lemma children_all_Forall (P : SemanticOcTreeNode F -> Prop) a :
  children_all P (Some a) <-> Forall (slot_all P) (to_list8 a).
Proof.
  unfold to_list8. simpl. split.
  - intros (H0 & H1 & H2 & H3 & H4 & H5 & H6 & H7). by repeat constructor.
  - intros Hall.
    repeat match goal with
           | Hl : Forall _ (_ :: _) |- _ => apply Forall_cons in Hl as [? Hl]
           end.
    done.
Qed.

Lemma to_list8_inv (l : list (option (SemanticOcTreeNode F))) :
  length l = 8%nat -> exists a, l = to_list8 a.
Proof.
  intros Hlen.
  destruct l as [|x0 [|x1 [|x2 [|x3 [|x4 [|x5 [|x6 [|x7 [|x8 l]]]]]]]]]; try done.
  by exists (mk8 x0 x1 x2 x3 x4 x5 x6 x7).
Qed.

Lemma to_list8_inj (a a' : Array8 (option (SemanticOcTreeNode F))) :
  to_list8 a = to_list8 a' -> a = a'.
Proof.
  destruct a, a'. unfold to_list8. simpl. intros Heq.
  by injection Heq as -> -> -> -> -> -> -> ->.
Qed.

(** What the loop over the slots returns. *)
Lemma on_children_Some (rec : SemanticOcTreeNode F -> option (SemanticOcTreeNode F)) a a' :
  on_children rec a = Some a'
  <-> Forall2 (slot_rel (fun ch ch' => rec ch = Some ch')) (to_list8 a) (to_list8 a').
Proof.
  assert (Hslot : forall o o',
            on_child rec o = Some o' <-> slot_rel (fun ch ch' => rec ch = Some ch') o o').
  { intros [ch|] [ch'|]; simpl; try (split; [discriminate|done]); try done.
    - destruct (rec ch) as [x|]; simpl; split; try discriminate; try done.
      + by intros [= ->].
      + by intros [= ->].
    - destruct (rec ch); simpl; split; (discriminate || done). }
  destruct a as [a0 a1 a2 a3 a4 a5 a6 a7], a' as [b0 b1 b2 b3 b4 b5 b6 b7].
  unfold on_children, to_list8. simpl. split.
  - intros Hrun.
    destruct (on_child rec a0) as [x0|] eqn:E0; [|done];
    destruct (on_child rec a1) as [x1|] eqn:E1; [|done];
    destruct (on_child rec a2) as [x2|] eqn:E2; [|done];
    destruct (on_child rec a3) as [x3|] eqn:E3; [|done];
    destruct (on_child rec a4) as [x4|] eqn:E4; [|done];
    destruct (on_child rec a5) as [x5|] eqn:E5; [|done];
    destruct (on_child rec a6) as [x6|] eqn:E6; [|done];
    destruct (on_child rec a7) as [x7|] eqn:E7; [|done].
    simpl in Hrun. injection Hrun as <- <- <- <- <- <- <- <-.
    repeat (constructor; [by apply Hslot|]). constructor.
  - intros Hall.
    repeat match goal with
           | Hl : Forall2 _ (_ :: _) (_ :: _) |- _ =>
               apply Forall2_cons in Hl as [?%Hslot Hl]
           end.
    by repeat match goal with Hs : on_child _ _ = Some _ |- _ => rewrite Hs; clear Hs end.
Qed.

(** The loop returns when the call on every child does. *)
Lemma on_children_exists (rec : SemanticOcTreeNode F -> option (SemanticOcTreeNode F))
    (Q : SemanticOcTreeNode F -> SemanticOcTreeNode F -> Prop) a :
  Forall (slot_all (fun ch => exists ch', rec ch = Some ch' /\ Q ch ch')) (to_list8 a) ->
  exists a',
    on_children rec a = Some a' /\ Forall2 (slot_rel Q) (to_list8 a) (to_list8 a').
Proof.
  intros Hall.
  assert (Hl : exists l',
            Forall2 (slot_rel (fun ch ch' => rec ch = Some ch' /\ Q ch ch'))
                    (to_list8 a) l').
  { induction Hall as [|o l Ho _ [l' IH]]; [by exists []|].
    destruct o as [ch|]; simpl in Ho.
    - destruct Ho as (ch' & Hrec & HQ). exists (Some ch' :: l'). by constructor.
    - exists (None :: l'). by constructor. }
  destruct Hl as [l' Hl'].
  destruct (to_list8_inv l') as [a' ->].
  { by rewrite <- (Forall2_length _ _ _ Hl'). }
  exists a'. split.
  - apply on_children_Some. eapply slots_rel_impl; [|exact Hl']. by intros ch ch' [? _].
  - eapply slots_rel_impl; [|exact Hl']. by intros ch ch' [_ ?].
Qed.

Lemma nodeHasChildren_slots (n : SemanticOcTreeNode F) :
  nodeHasChildren n = true <-> exists ch, Some ch ∈ child_slots n.
Proof.
  unfold nodeHasChildren. rewrite existsb_exists. split.
  - intros ([ch|] & Hin & Hsome); [|done]. exists ch. by apply list_elem_of_In.
  - intros (ch & Hin). exists (Some ch). split; [by apply list_elem_of_In|done].
Qed.

(** The averages read the semantics and the children of a node, nothing
    else. *)
Lemma getAverageChildColor_map_ext mp (n n' : SemanticOcTreeNode F) :
  semantics n = semantics n' -> children n = children n' ->
  getAverageChildColor_map mp n = getAverageChildColor_map mp n'.
Proof.
  intros Hs Hc.
  unfold getAverageChildColor_map, getAverageChildColor, child_slots.
  by rewrite Hs, Hc.
Qed.

Lemma getAverageChildSemantics_ext (n n' : SemanticOcTreeNode F) :
  children n = children n' ->
  getAverageChildSemantics n = getAverageChildSemantics n'.
Proof. intros Hc. unfold getAverageChildSemantics, child_slots. by rewrite Hc. Qed.

End SlotRelations.

Section PassStructure.

Context {F : Type} `{FloatOps F}.
Variable aggregateOccupancy : Z -> list (option Z) -> Z.

Abbreviation pass := (updateInnerOccupancyRecurs aggregateOccupancy).
Abbreviation inner_summary := (inner_summary aggregateOccupancy).
Abbreviation visited_children := (visited_children aggregateOccupancy).

Lemma update_inner_eq (t : SemanticOcTree F) node :
  update_inner aggregateOccupancy t node
  = c ← getAverageChildColor_map (label2color t) (inner_summary node);
    Some (setColor (inner_summary node) c).
Proof.
  unfold update_inner, inner_summary, updateColorChildren_map, updateColorChildren.
  destruct (decide (size (label2color t) = 0%nat)) as [He|Hne]; [|done].
  unfold getAverageChildColor_map. by rewrite decide_True.
Qed.

Lemma pass_inner_Some (t : SemanticOcTree F) node depth n' :
  nodeHasChildren node = true ->
  pass t node depth = Some n'
  <-> exists cs' c,
        visited_children t node depth cs'
        /\ getAverageChildColor_map (label2color t) (inner_summary (set_children node cs'))
           = Some c
        /\ n' = setColor (inner_summary (set_children node cs')) c.
Proof.
  intros Hinner. rewrite pass_inner by done. unfold visited_children.
  assert (Hch : exists a, children node = Some a).
  { apply nodeHasChildren_slots in Hinner as (ch & Hin).
    unfold child_slots in Hin. destruct (children node) as [a|]; [by exists a|].
    by apply elem_of_nil in Hin. }
  destruct Hch as [a Ha]. rewrite Ha.
  destruct (depth <? tree_depth t)%nat; simpl.
  - split.
    + destruct (on_children _ a) as [a'|] eqn:Hrun; [|done]. simpl.
      rewrite update_inner_eq.
      destruct (getAverageChildColor_map _ _) as [c|] eqn:Hc; [|done].
      intros [= <-]. exists (Some a'), c. split; [|done].
      exists a, a'. split; [done|]. split; [done|]. by apply on_children_Some.
    + intros (cs' & c & (a0 & a' & [= <-] & -> & Hall) & Hc & ->).
      apply on_children_Some in Hall. rewrite Hall. simpl.
      rewrite update_inner_eq, Hc. done.
  - rewrite update_inner_eq. rewrite <- Ha. split.
    + destruct (getAverageChildColor_map _ _) as [c|] eqn:Hc; [|done].
      intros [= <-]. by exists (children node), c.
    + intros (cs' & c & -> & Hc & ->). by rewrite Hc.
Qed.

Lemma pass_leaf_Some (t : SemanticOcTree F) node depth n' :
  nodeHasChildren node = false ->
  pass t node depth = Some n'
  <-> exists c, getAverageChildColor_map (label2color t) node = Some c
                /\ n' = setColor node c.
Proof.
  intros Hleaf. rewrite pass_leaf by done. unfold updateColorChildren_map.
  destruct (getAverageChildColor_map _ _) as [c|]; simpl; split.
  - intros [= <-]. by exists c.
  - by intros (c' & [= <-] & ->).
  - done.
  - by intros (c' & ? & _).
Qed.

End PassStructure.

(** ** The pass over a tree *)

Section TreeFacts.

Context {F : Type} `{FloatOps F}.

Lemma all_nodes_unfold (P : SemanticOcTreeNode F -> Prop) (n : SemanticOcTreeNode F) :
  all_nodes P n <-> P n /\ children_all (all_nodes P) (children n).
Proof. by destruct n as [v c s [a|]]. Qed.

Lemma summaries_ok_unfold mp td (n : SemanticOcTreeNode F) d :
  summaries_ok mp td n d
  <-> summary_ok mp n
      /\ ((d < td)%nat ->
          children_all (fun ch => summaries_ok mp td ch (S d)) (children n)).
Proof. by destruct n as [v c s [a|]]. Qed.

Lemma height_child (n : SemanticOcTreeNode F) a ch :
  children n = Some a -> Some ch ∈ to_list8 a -> (height ch < height n)%nat.
Proof.
  intros Ha Hin. destruct n as [v c s cs]. simpl in Ha. subst cs. simpl.
  unfold to_list8 in Hin.
  repeat (apply elem_of_cons in Hin as [Heq|Hin]; [rewrite <- Heq; lia|]).
  by apply elem_of_nil in Hin.
Qed.

Lemma leaves_unfold (n : SemanticOcTreeNode F) :
  leaves n
  = match children n with
    | None => [(value n, semantics n)]
    | Some a =>
        let slot (o : option (SemanticOcTreeNode F)) :=
          match o with Some ch => leaves ch | None => [] end in
        if nodeHasChildren n
        then slot (c0 a) ++ slot (c1 a) ++ slot (c2 a) ++ slot (c3 a)
             ++ slot (c4 a) ++ slot (c5 a) ++ slot (c6 a) ++ slot (c7 a)
        else [(value n, semantics n)]
    end.
Proof. by destruct n as [v c s [a|]]. Qed.

Lemma skeleton_unfold (n : SemanticOcTreeNode F) :
  skeleton n
  = mkNode 0 default_color Semantics_default
      (match children n with
       | None => None
       | Some a =>
           let slot (o : option (SemanticOcTreeNode F)) :=
             match o with Some ch => Some (skeleton ch) | None => None end in
           Some (mk8 (slot (c0 a)) (slot (c1 a)) (slot (c2 a)) (slot (c3 a))
                     (slot (c4 a)) (slot (c5 a)) (slot (c6 a)) (slot (c7 a)))
       end).
Proof. by destruct n as [v c s [a|]]. Qed.

Lemma leaf_slots_empty (n : SemanticOcTreeNode F) a :
  nodeHasChildren n = false -> children n = Some a -> Forall (fun o => o = None) (to_list8 a).
Proof.
  intros Hleaf Ha. apply Forall_forall. intros [ch|] Hin; [|done].
  assert (nodeHasChildren n = true); [|congruence].
  apply nodeHasChildren_slots. exists ch. unfold child_slots. by rewrite Ha.
Qed.

Lemma Forall_slot_all_elem (P : SemanticOcTreeNode F -> Prop) l ch :
  Forall (slot_all P) l -> Some ch ∈ l -> P ch.
Proof. intros Hall Hin. by apply (proj1 (Forall_forall _ _) Hall (Some ch)). Qed.

Lemma slot_all_of_elems (P : SemanticOcTreeNode F -> Prop) l :
  (forall ch, Some ch ∈ l -> P ch) -> Forall (slot_all P) l.
Proof.
  intros Hall. apply Forall_forall. intros [ch|] Hin; simpl; [by apply Hall|done].
Qed.

Lemma slots_rel_right_all (R : SemanticOcTreeNode F -> SemanticOcTreeNode F -> Prop)
    (P : SemanticOcTreeNode F -> Prop) l l' :
  (forall ch ch', R ch ch' -> P ch') ->
  Forall2 (slot_rel R) l l' -> Forall (slot_all P) l'.
Proof.
  intros HR Hall. apply slot_all_of_elems. intros ch' Hin.
  destruct (slots_rel_elem_r R l l' ch' Hall Hin) as (ch & _ & Hch). eauto.
Qed.

Lemma slots_rel_diag (R R' : SemanticOcTreeNode F -> SemanticOcTreeNode F -> Prop) l l' :
  (forall ch ch', R ch ch' -> R' ch' ch') ->
  Forall2 (slot_rel R) l l' -> Forall2 (slot_rel R') l' l'.
Proof.
  intros HR Hall. induction Hall as [|o o' l l' Ho _ IH]; constructor; [|done].
  destruct o, o'; simpl in *; eauto; done.
Qed.

Lemma slots_rel_some (R : SemanticOcTreeNode F -> SemanticOcTreeNode F -> Prop) l l' :
  Forall2 (slot_rel R) l l' ->
  existsb (fun o : option (SemanticOcTreeNode F) =>
             match o with Some _ => true | None => false end) l'
  = existsb (fun o : option (SemanticOcTreeNode F) =>
               match o with Some _ => true | None => false end) l.
Proof.
  induction 1 as [|o o' l l' Ho _ IH]; simpl; [done|].
  rewrite IH. by destruct o, o'.
Qed.

End TreeFacts.

Section PassErrors.

Context {F : Type} `{FloatOps F}.
Variable aggregateOccupancy : Z -> list (option Z) -> Z.

Abbreviation pass := (updateInnerOccupancyRecurs aggregateOccupancy).
Abbreviation inner_summary := (inner_summary aggregateOccupancy).

(** X15.  How the pass fails.  On a leaf with semantics and a non-empty
    label-colour map that has no entry for the leaf's most probable class,
    [label2color.at] throws; and an exception raised in the pass over a child
    ends the pass over its parent. *)
Theorem pass_missing_entry_throws (t : SemanticOcTree F) node depth :
  (nodeHasChildren node = false ->
   size (label2color t) <> 0%nat ->
   isSemanticsSet node = true ->
   label2color t !! Z.of_nat (max_element (label (semantics node))) = None ->
   pass t node depth = None)
  /\ (forall ch,
        (depth < tree_depth t)%nat ->
        Some ch ∈ child_slots node ->
        pass t ch (S depth) = None ->
        pass t node depth = None).
Proof.
  split.
  - apply leaf_color_missing_entry.
  - intros ch Hdepth Hin Hch.
    assert (Hinner : nodeHasChildren node = true)
      by (apply nodeHasChildren_slots; by exists ch).
    destruct (pass t node depth) as [n'|] eqn:Hpass; [exfalso|done].
    apply pass_inner_Some in Hpass as (cs' & c & Hvisit & _); [|done].
    unfold visited_children in Hvisit.
    apply Nat.ltb_lt in Hdepth. rewrite Hdepth in Hvisit.
    destruct Hvisit as (a & a' & Ha & _ & Hall).
    unfold child_slots in Hin. rewrite Ha in Hin.
    destruct (slots_rel_elem_l _ _ _ ch Hall Hin) as (ch' & _ & Hch').
    congruence.
Qed.

Lemma color_lookup_total (mp : gmap Z (Z * Z * Z)) (N : nat) (n : SemanticOcTreeNode F) :
  (forall k, (k < N)%nat -> is_Some (mp !! Z.of_nat k)) ->
  (length (label (semantics n)) <= N)%nat ->
  is_Some (getAverageChildColor_map mp n).
Proof.
  intros Hcover Hlen. unfold getAverageChildColor_map.
  destruct (decide (size mp = 0%nat)); [by eexists|].
  destruct (decide (length (label (semantics n)) = 0%nat)); [by eexists|].
  destruct (Hcover (max_element (label (semantics n)))) as [[[cr cg] cb] ->];
    [|by eexists].
  destruct (label (semantics n)) as [|x l]; [done|]. simpl in *.
  pose proof (max_element_from_bound l 0 x 1). lia.
Qed.

Lemma max_length_bound (N : nat) (ls : list (list F)) :
  Forall (fun l => (length l <= N)%nat) ls -> (max_length ls <= N)%nat.
Proof. induction 1; simpl; lia. Qed.

Lemma inner_summary_label_bound (N : nat) (n : SemanticOcTreeNode F) :
  (forall ch, Some ch ∈ child_slots n -> (length (label (semantics ch)) <= N)%nat) ->
  (length (label (semantics (inner_summary n))) <= N)%nat.
Proof.
  intros Hch. unfold inner_summary. simpl.
  erewrite (getAverageChildSemantics_ext _ n) by done.
  rewrite getAverageChildSemantics_label_length. apply max_length_bound.
  apply Forall_forall. intros l Hl. unfold set_child_labels in Hl.
  apply list_elem_of_omap in Hl as ([ch|] & Hin & Heq); [|done]. simpl in Heq.
  destruct (isSemanticsSet ch); [|done]. injection Heq as <-. by apply Hch.
Qed.

(** X16.  When the label-colour map has an entry for every class below
    [N] and no node of the tree has more than [N] labels, the pass does not
    throw, and no node has more than [N] labels afterwards. *)
Theorem pass_total_when_map_covers (t : SemanticOcTree F) (N : nat) node depth :
  (forall k, (k < N)%nat -> is_Some (label2color t !! Z.of_nat k)) ->
  all_nodes (fun n => (length (label (semantics n)) <= N)%nat) node ->
  exists n',
    pass t node depth = Some n'
    /\ all_nodes (fun n => (length (label (semantics n)) <= N)%nat) n'.
Proof.
  intros Hcover. revert depth.
  induction node as [v c s cs IH] using Node_induction. intros depth Hall.
  set (node := mkNode v c s cs) in *.
  apply all_nodes_unfold in Hall as [Hnode Hchildren].
  destruct (nodeHasChildren node) eqn:Hkind.
  - assert (Hvisit : exists cs',
              visited_children aggregateOccupancy t node depth cs'
              /\ children_all
                   (all_nodes (fun n => (length (label (semantics n)) <= N)%nat)) cs').
    { unfold visited_children. destruct (depth <? tree_depth t)%nat.
      - destruct cs as [a|]; [|done].
        destruct (on_children_exists (fun ch => pass t ch (S depth))
                    (fun _ ch' =>
                       all_nodes (fun n => (length (label (semantics n)) <= N)%nat) ch') a)
          as (a' & Hrun & Hrel).
        { apply children_all_Forall in IH, Hchildren.
          apply slot_all_of_elems. intros ch Hin.
          apply (Forall_slot_all_elem _ _ _ IH Hin).
          by apply (Forall_slot_all_elem _ _ _ Hchildren Hin). }
        exists (Some a'). split.
        + exists a, a'. split; [done|]. split; [done|]. by apply on_children_Some.
        + apply children_all_Forall. eapply slots_rel_right_all; [|exact Hrel]. done.
      - by exists cs. }
    destruct Hvisit as (cs' & Hvisit & Hcs').
    assert (Hbound : (length (label (semantics (inner_summary (set_children node cs'))))
                      <= N)%nat).
    { apply inner_summary_label_bound. intros ch Hin.
      unfold child_slots in Hin. simpl in Hin. destruct cs' as [a'|];
        [|by apply elem_of_nil in Hin].
      apply children_all_Forall in Hcs'.
      pose proof (Forall_slot_all_elem _ _ _ Hcs' Hin) as Hch.
      by apply all_nodes_unfold in Hch as [Hch _]. }
    destruct (color_lookup_total (label2color t) N _ Hcover Hbound) as [c' Hc'].
    eexists. split.
    + apply pass_inner_Some; [done|]. by exists cs', c'.
    + apply all_nodes_unfold. split; [exact Hbound|exact Hcs'].
  - destruct (color_lookup_total (label2color t) N node Hcover Hnode) as [c' Hc'].
    exists (setColor node c'). split.
    + apply pass_leaf_Some; [done|]. by exists c'.
    + apply all_nodes_unfold. split; [exact Hnode|exact Hchildren].
Qed.

End PassErrors.

Section PassInvariants.

Context {F : Type} `{FloatOps F}.
Variable aggregateOccupancy : Z -> list (option Z) -> Z.

Abbreviation pass := (updateInnerOccupancyRecurs aggregateOccupancy).

Lemma nodeHasChildren_setColor (n : SemanticOcTreeNode F) c :
  nodeHasChildren (setColor n c) = nodeHasChildren n.
Proof. done. Qed.

Lemma pass_summaries_ok (t : SemanticOcTree F) node depth n' :
  pass t node depth = Some n' ->
  summaries_ok (label2color t) (tree_depth t) n' depth.
Proof.
  revert depth n'.
  induction node as [v c s cs IH] using Node_induction. intros depth n' Hpass.
  set (node := mkNode v c s cs) in *.
  destruct (nodeHasChildren node) eqn:Hkind.
  - apply pass_inner_Some in Hpass as (cs' & c' & Hvisit & Hc' & ->); [|done].
    apply summaries_ok_unfold. split; [split|].
    + simpl. rewrite <- Hc'. by apply getAverageChildColor_map_ext.
    + intros _. simpl. by apply getAverageChildSemantics_ext.
    + intros Hdepth. simpl. unfold visited_children in Hvisit.
      apply Nat.ltb_lt in Hdepth. rewrite Hdepth in Hvisit.
      destruct Hvisit as (a & a' & Ha & -> & Hall). simpl in Ha. subst cs.
      apply children_all_Forall. apply children_all_Forall in IH.
      eapply slots_rel_right_all; [|exact (slots_rel_with _ _ _ _ IH Hall)].
      intros ch ch' [Hih Hch]. by apply Hih.
  - apply pass_leaf_Some in Hpass as (c' & Hc' & ->); [|done].
    apply summaries_ok_unfold. split; [split|].
    + simpl. rewrite <- Hc'. by apply getAverageChildColor_map_ext.
    + rewrite nodeHasChildren_setColor. congruence.
    + intros _. simpl. destruct cs as [a|]; [|done].
      apply children_all_Forall.
      eapply Forall_impl; [exact (leaf_slots_empty node a Hkind eq_refl)|].
      by intros o ->.
Qed.

(** X17.  What the pass establishes.  At the node it is called on and at
    every node it reaches below (it does not descend past [tree_depth]), the
    colour is the one [getAverageChildColor(label2color)] gives for the node
    as it is after the pass, and the semantics of an inner node are the
    average [getAverageChildSemantics] of its children as they are after the
    pass. *)
Theorem pass_establishes_summaries (t : SemanticOcTree F) node depth n' :
  pass t node depth = Some n' ->
  summaries_ok (label2color t) (tree_depth t) n' depth.
Proof. apply pass_summaries_ok. Qed.

Lemma slot_rel_data (o o' : option (SemanticOcTreeNode F)) :
  slot_rel (fun ch ch' => skeleton ch' = skeleton ch /\ leaves ch' = leaves ch) o o' ->
  match o' with Some ch => Some (skeleton ch) | None => None end
  = match o with Some ch => Some (skeleton ch) | None => None end
  /\ match o' with Some ch => leaves ch | None => [] end
     = match o with Some ch => leaves ch | None => [] end.
Proof. destruct o, o'; simpl; try done. by intros [-> ->]. Qed.

Lemma pass_shape_leaves (t : SemanticOcTree F) node depth n' :
  pass t node depth = Some n' ->
  skeleton n' = skeleton node /\ leaves n' = leaves node.
Proof.
  revert depth n'.
  induction node as [v c s cs IH] using Node_induction. intros depth n' Hpass.
  set (node := mkNode v c s cs) in *.
  destruct (nodeHasChildren node) eqn:Hkind.
  - apply pass_inner_Some in Hpass as (cs' & c' & Hvisit & _ & ->); [|done].
    unfold visited_children in Hvisit.
    destruct (depth <? tree_depth t)%nat.
    + destruct Hvisit as (a & a' & Ha & -> & Hall). simpl in Ha. subst cs.
      apply children_all_Forall in IH.
      pose proof (slots_rel_with _ _ _ _ IH Hall) as Hrel.
      assert (Hdata : Forall2
                (slot_rel (fun ch ch' =>
                   skeleton ch' = skeleton ch /\ leaves ch' = leaves ch))
                (to_list8 a) (to_list8 a')).
      { eapply slots_rel_impl; [|exact Hrel]. intros ch ch' [Hih Hch]. eauto. }
      assert (Hkind' : nodeHasChildren
                (setColor (inner_summary aggregateOccupancy
                             (set_children node (Some a'))) c') = true).
      { rewrite <- Hkind. exact (slots_rel_some _ _ _ Hdata). }
      rewrite (leaves_unfold node), (skeleton_unfold node).
      rewrite (leaves_unfold (setColor _ _)), (skeleton_unfold (setColor _ _)).
      rewrite Hkind, Hkind'.
      cbn [children setColor inner_summary
           updateSemanticsChildren setSemantics updateOccupancyChildren
           set_value set_children node].
      destruct a as [a0 a1 a2 a3 a4 a5 a6 a7], a' as [b0 b1 b2 b3 b4 b5 b6 b7].
      unfold to_list8 in Hdata. cbn [c0 c1 c2 c3 c4 c5 c6 c7] in *.
      repeat match goal with
             | Hl : Forall2 _ (_ :: _) (_ :: _) |- _ =>
                 apply Forall2_cons in Hl as [[? ?]%slot_rel_data Hl]
             end.
      split;
        repeat match goal with
               | Heq : match _ with Some _ => _ | None => _ end = _ |- _ =>
                   rewrite Heq; clear Heq
               end;
        reflexivity.
    + subst cs'. destruct cs as [a|]; [|discriminate Hkind].
      rewrite (leaves_unfold node), (skeleton_unfold node).
      rewrite (leaves_unfold (setColor _ _)), (skeleton_unfold (setColor _ _)).
      change (nodeHasChildren (setColor _ _)) with (nodeHasChildren node).
      by rewrite Hkind.
  - apply pass_leaf_Some in Hpass as (c' & _ & ->); [|done].
    rewrite (leaves_unfold node), (skeleton_unfold node).
    by rewrite (leaves_unfold (setColor _ _)), (skeleton_unfold (setColor _ _)).
Qed.

(** X18.  What the pass leaves alone.  It adds and removes no node, and
    it changes neither the occupancy value nor the semantics of any leaf:
    only colours, and the occupancy and semantics of inner nodes, are
    rewritten. *)
Theorem pass_keeps_shape_and_leaves (t : SemanticOcTree F) node depth n' :
  pass t node depth = Some n' ->
  skeleton n' = skeleton node /\ leaves n' = leaves node.
Proof. apply pass_shape_leaves. Qed.

(** X21.  [addColorMap] replaces the map and touches no node; the colours
    follow only at the next [updateInnerOccupancy], which keeps the map and
    the depth of the tree, adds and removes no node, leaves the leaves'
    occupancy and semantics alone, and colours every node it reaches by the
    new map. *)
Theorem addColorMap_then_updateInnerOccupancy
    (t : SemanticOcTree F) (mp : gmap Z (Z * Z * Z)) (n : SemanticOcTreeNode F) :
  root t = Some n ->
  root (addColorMap t mp) = Some n
  /\ forall t',
       updateInnerOccupancy aggregateOccupancy (addColorMap t mp) = Some t' ->
       label2color t' = mp
       /\ tree_depth t' = tree_depth t
       /\ exists n',
            root t' = Some n'
            /\ summaries_ok mp (tree_depth t) n' 0
            /\ skeleton n' = skeleton n
            /\ leaves n' = leaves n.
Proof.
  intros Hroot. split; [done|]. intros t' Hrun.
  unfold updateInnerOccupancy in Hrun. simpl in Hrun. rewrite Hroot in Hrun.
  destruct (pass (addColorMap t mp) n 0) as [n'|] eqn:Hpass; [|done].
  simpl in Hrun. injection Hrun as <-. simpl.
  split; [done|]. split; [done|]. exists n'. split; [done|].
  split; [exact (pass_summaries_ok _ _ _ _ Hpass)|].
  exact (pass_shape_leaves _ _ _ _ Hpass).
Qed.

End PassInvariants.

Section PassRepeated.

Context {F : Type} `{FloatOps F}.
Variable aggregateOccupancy : Z -> list (option Z) -> Z.

Abbreviation pass := (updateInnerOccupancyRecurs aggregateOccupancy).

(** X19.  Without a label-colour map the pass leaves no colour behind.  A
    leaf goes through the averaging branch, finds no child and is reset to
    white; a parent of white children is white.  So a node whose subtree lies
    within [tree_depth] comes out white, whatever colours the tree held. *)
Theorem pass_without_map_whitens (t : SemanticOcTree F) node depth :
  size (label2color t) = 0%nat ->
  (depth + height node <= tree_depth t)%nat ->
  exists n', pass t node depth = Some n' /\ color n' = default_color.
Proof.
  intros Hempty. revert depth.
  induction node as [v c s cs IH] using Node_induction. intros depth Hheight.
  set (node := mkNode v c s cs) in *.
  destruct (nodeHasChildren node) eqn:Hkind.
  - destruct cs as [a|]; [|discriminate Hkind].
    assert (Hdepth : (depth < tree_depth t)%nat) by (simpl in Hheight; lia).
    destruct (on_children_exists (fun ch => pass t ch (S depth))
                (fun _ ch' => color ch' = default_color) a) as (a' & Hrun & Hrel).
    { apply children_all_Forall in IH. apply slot_all_of_elems. intros ch Hin.
      apply (Forall_slot_all_elem _ _ _ IH Hin).
      pose proof (height_child node a ch eq_refl Hin). lia. }
    eexists. split.
    + apply pass_inner_Some; [done|]. exists (Some a'). eexists. split; [|split; [|done]].
      * unfold visited_children. apply Nat.ltb_lt in Hdepth. rewrite Hdepth.
        exists a, a'. split; [done|]. split; [done|]. by apply on_children_Some.
      * unfold getAverageChildColor_map. by rewrite decide_True.
    + simpl. apply getAverageChildColor_none. intros ch' Hin.
      unfold child_slots in Hin. simpl in Hin.
      destruct (slots_rel_elem_r _ _ _ ch' Hrel Hin) as (ch & _ & Hwhite).
      unfold isColorSet. by rewrite Hwhite.
  - rewrite (leaf_color_empty_map aggregateOccupancy t node depth Hkind Hempty).
    by eexists.
Qed.

(** X20.  Running the pass again changes nothing, provided the occupancy
    aggregation of the host library is itself stable (aggregating a second
    time over the same children gives the same value). *)
Theorem pass_idempotent (t : SemanticOcTree F) node depth n' :
  (forall v cs, aggregateOccupancy (aggregateOccupancy v cs) cs = aggregateOccupancy v cs) ->
  pass t node depth = Some n' ->
  pass t n' depth = Some n'.
Proof.
  intros Hstable. revert depth n'.
  induction node as [v c s cs IH] using Node_induction. intros depth n' Hpass.
  set (node := mkNode v c s cs) in *.
  destruct (nodeHasChildren node) eqn:Hkind.
  - apply pass_inner_Some in Hpass as (cs' & c' & Hvisit & Hc' & ->); [|done].
    assert (Hkind' : nodeHasChildren
              (setColor (inner_summary aggregateOccupancy (set_children node cs')) c')
            = true).
    { unfold visited_children in Hvisit. destruct (depth <? tree_depth t)%nat.
      - destruct Hvisit as (a & a' & Ha & -> & Hall). simpl in Ha. subst cs.
        rewrite <- Hkind. exact (slots_rel_some _ _ _ Hall).
      - by subst cs'. }
    apply pass_inner_Some; [done|]. exists cs', c'. split; [|split].
    + unfold visited_children in *. destruct (depth <? tree_depth t)%nat; [|done].
      destruct Hvisit as (a & a' & Ha & -> & Hall). simpl in Ha. subst cs.
      exists a', a'. split; [done|]. split; [done|].
      apply children_all_Forall in IH.
      eapply slots_rel_diag; [|exact (slots_rel_with _ _ _ _ IH Hall)].
      intros ch ch' [Hih Hch]. by eapply Hih.
    + rewrite <- Hc'. by apply getAverageChildColor_map_ext.
    + unfold setColor, inner_summary, updateSemanticsChildren, setSemantics,
        updateOccupancyChildren, set_value, set_children, child_slots. simpl.
      rewrite Hstable. f_equal.
  - apply pass_leaf_Some in Hpass as (c' & Hc' & ->); [|done].
    apply pass_leaf_Some; [done|]. exists c'. split; [|done].
    rewrite <- Hc'. by apply getAverageChildColor_map_ext.
Qed.

End PassRepeated.

(** ** Runs of the pass *)

Section PassRuns.

Import Binary32.

Lemma pass_missing_entry_throws_witness :
  updateInnerOccupancyRecurs keep_occupancy tree_with_map unmapped_leaf 1 = None
  /\ updateInnerOccupancyRecurs keep_occupancy tree_with_map
       (stale_parent unmapped_leaf) 0 = None.
Proof.
  destruct (pass_missing_entry_throws keep_occupancy tree_with_map unmapped_leaf 1)
    as [Hleaf _].
  destruct (pass_missing_entry_throws keep_occupancy tree_with_map
              (stale_parent unmapped_leaf) 0) as [_ Hparent].
  assert (Hthrown : updateInnerOccupancyRecurs keep_occupancy tree_with_map
                      unmapped_leaf 1 = None).
  { apply Hleaf; [reflexivity|by vm_compute|reflexivity|reflexivity]. }
  split; [exact Hthrown|].
  apply (Hparent unmapped_leaf); [simpl; lia|apply list_elem_of_here|exact Hthrown].
Defined.

Lemma two_class_map_covers (k : nat) :
  (k < 2)%nat -> is_Some (two_class_map !! Z.of_nat k).
Proof.
  destruct k as [|[|k]]; intros Hk; [by eexists|by eexists|lia].
Qed.

Lemma pass_total_when_map_covers_witness :
  exists n', updateInnerOccupancyRecurs keep_occupancy tree_with_map sample_tree 0 = Some n'.
Proof.
  destruct (pass_total_when_map_covers keep_occupancy tree_with_map 2 sample_tree 0)
    as (n' & Hpass & _).
  - apply two_class_map_covers.
  - simpl. repeat split; lia.
  - by exists n'.
Defined.

Lemma pass_establishes_summaries_witness :
  exists n',
    updateInnerOccupancyRecurs keep_occupancy tree_with_map sample_tree 0 = Some n'
    /\ summaries_ok two_class_map 16 n' 0.
Proof.
  destruct (updateInnerOccupancyRecurs keep_occupancy tree_with_map sample_tree 0)
    as [n'|] eqn:Hpass; [|vm_compute in Hpass; discriminate].
  exists n'. split; [reflexivity|].
  exact (pass_establishes_summaries keep_occupancy tree_with_map sample_tree 0 n' Hpass).
Defined.

Lemma pass_keeps_shape_and_leaves_witness :
  exists n',
    updateInnerOccupancyRecurs keep_occupancy tree_with_map sample_tree 0 = Some n'
    /\ skeleton n' = skeleton sample_tree /\ leaves n' = leaves sample_tree.
Proof.
  destruct (updateInnerOccupancyRecurs keep_occupancy tree_with_map sample_tree 0)
    as [n'|] eqn:Hpass; [|vm_compute in Hpass; discriminate].
  exists n'. split; [reflexivity|].
  exact (pass_keeps_shape_and_leaves keep_occupancy tree_with_map sample_tree 0 n' Hpass).
Defined.

Lemma pass_without_map_whitens_witness :
  exists n',
    updateInnerOccupancyRecurs keep_occupancy tree_without_map sample_tree 0 = Some n'
    /\ color n' = default_color.
Proof.
  apply (pass_without_map_whitens keep_occupancy tree_without_map sample_tree 0).
  - reflexivity.
  - simpl. lia.
Defined.

Lemma pass_idempotent_witness :
  exists n',
    updateInnerOccupancyRecurs keep_occupancy tree_with_map sample_tree 0 = Some n'
    /\ updateInnerOccupancyRecurs keep_occupancy tree_with_map n' 0 = Some n'.
Proof.
  destruct (updateInnerOccupancyRecurs keep_occupancy tree_with_map sample_tree 0)
    as [n'|] eqn:Hpass; [|vm_compute in Hpass; discriminate].
  exists n'. split; [reflexivity|].
  apply (pass_idempotent keep_occupancy tree_with_map sample_tree 0 n'); [done|exact Hpass].
Defined.

End PassRuns.

Lemma addColorMap_then_updateInnerOccupancy_witness :
  exists t',
    updateInnerOccupancy keep_occupancy
      (addColorMap (mkTree ∅ 2 16 (Some sample_tree)) two_class_map) = Some t'
    /\ label2color t' = two_class_map
    /\ exists n', root t' = Some n' /\ leaves n' = leaves sample_tree.
Proof.
  destruct (addColorMap_then_updateInnerOccupancy keep_occupancy
              (mkTree ∅ 2 16 (Some sample_tree)) two_class_map sample_tree eq_refl)
    as [_ Hnext].
  destruct (updateInnerOccupancy keep_occupancy
              (addColorMap (mkTree ∅ 2 16 (Some sample_tree)) two_class_map))
    as [t'|] eqn:Hrun; [|vm_compute in Hrun; discriminate].
  destruct (Hnext t' eq_refl) as (Hmap & _ & n' & Hroot & _ & _ & Hleaves).
  exists t'. split; [reflexivity|]. split; [exact Hmap|].
  exists n'. split; [exact Hroot|exact Hleaves].
Defined.


(** ** Observing what is already there *)

Section SameColour.

Context {F : Type} `{FloatOps F}.

(** X23.  Observing the colour a node already has leaves the node as it
    is, whether its colour counts as set or not. *)
Theorem averageNodeColor_same_colour (n : SemanticOcTreeNode F) :
  wf_color (color n) ->
  averageNodeColor (Some n) (r (color n)) (g (color n)) (b (color n)) = Some n.
Proof.
  intros (Hr & Hg & Hb). unfold averageNodeColor, setColor_rgb, setColor, getColor.
  assert (Hmean : forall x, u8_range x -> u8 ((x + x) ÷ 2) = x).
  { intros x Hx. rewrite u8_mean by done. unfold u8_range in Hx.
    rewrite Z.quot_div_nonneg by lia. Z.div_mod_to_equations. lia. }
  destruct n as [v [cr cg cb] s cs]. simpl in *.
  destruct (isColorSet _).
  - by rewrite !Hmean.
  - by rewrite !u8_small.
Qed.

End SameColour.

Lemma averageNodeColor_same_colour_witness :
  averageNodeColor (Some labelled_leaf) 10 20 30 = Some labelled_leaf.
Proof.
  apply (averageNodeColor_same_colour labelled_leaf). repeat split; done.
Defined.

Lemma averageNodeSemantics_empty_observation_witness :
  averageNodeSemantics (Some coloured_leaf) []
  = Some (mkNode 0 (mkColor 10 20 30) (mkSemantics [] 1) None)
  /\ averageNodeSemantics (Some labelled_leaf) []
     = Some (mkNode 0 (mkColor 10 20 30)
               (mkSemantics [Binary32.ratio 1 4; Binary32.ratio 3 4] 2) None).
Proof.
  destruct (averageNodeSemantics_empty_observation coloured_leaf) as [Hunset _].
  destruct (averageNodeSemantics_empty_observation labelled_leaf) as [_ Hset].
  split.
  - destruct (Hunset eq_refl) as [-> _]. reflexivity.
  - rewrite (Hset eq_refl). reflexivity.
Defined.
